(** * HILTI AST node ranges, tree walking and the operator documentation tables

    A shallow embedding of

    - [hilti/toolchain/include/ast/node-range.h]: [node::RangeIterator<T>]
      and [node::Range<T>], the typed views over a vector of node pointers;
    - the [Node] interface ([properties], [children], [meta], [pruneWalk]);
    - the table-building part of the [spicy-doc] to reST script
      ([NamespaceMappings], [namespace], the main loop over the operator
      metadata).

    Pointers are addresses into an explicit heap, [std::shared_ptr] is an
    optional address, [size_t] and [difference_type] are 64-bit, and
    [assert] is an outcome of its own. *)

From Stdlib Require Import ZArith Lia.
From stdpp Require Import gmap strings list fin_maps sorting.

(** ** Outcomes of running a piece of C++ *)

(** A call either returns, fails an [assert], runs into behaviour that C++
    leaves undefined (dereferencing an iterator outside its vector), or is
    still looping when the model's fuel is used up. *)
Inductive Outcome (A : Type) : Type :=
  | Ok (a : A)
  | AssertionFailure
  | Undefined
  | OutOfFuel.

Arguments Ok {A} a.
Arguments AssertionFailure {A}.
Arguments Undefined {A}.
Arguments OutOfFuel {A}.

Global Instance Outcome_ret : MRet Outcome := fun A a => Ok a.

Global Instance Outcome_bind : MBind Outcome := fun A B k m =>
  match m with
  | Ok a => k a
  | AssertionFailure => AssertionFailure
  | Undefined => Undefined
  | OutOfFuel => OutOfFuel
  end.

(** [assert(c)] *)
Definition assert (c : bool) : Outcome unit :=
  if c then Ok tt else AssertionFailure.

(** ** Member functions of a class template *)

(** A member function of a class template is instantiated when it is
    used. Its body is checked then, and a body that does not type-check
    makes the program ill-formed: there is no function to call. *)
Inductive Instantiated (A : Type) : Type :=
  | WellFormed (f : A)
  | IllFormed.

Arguments WellFormed {A} f.
Arguments IllFormed {A}.

(** The types that the bodies of [RangeIterator<T>] and [Range<T>] return
    or are declared to return, for [T] a class of nodes. *)
Inductive CxxType : Type :=
  | SharedPtrT                 (* std::shared_ptr<T> *)
  | ConstRefT                  (* const T& *)
  | PointerTo (t : CxxType).   (* t* *)

Inductive Category : Type := LValue | PRValue.

(** Unary [&] takes the address of an lvalue only. *)
Definition address_of (e : CxxType * Category) : option (CxxType * Category) :=
  match e with
  | (t, LValue) => Some (PointerTo t, PRValue)
  | (_, PRValue) => None
  end.

Fixpoint same_type (a b : CxxType) : bool :=
  match a, b with
  | SharedPtrT, SharedPtrT => true
  | ConstRefT, ConstRefT => true
  | PointerTo a', PointerTo b' => same_type a' b'
  | _, _ => false
  end.

(** [return e;] in a function declared to return [ret]: an expression of
    the declared type is returned as it is, and nothing converts between
    the three kinds of types. In particular a node class has no
    constructor from a [std::shared_ptr] of itself, so a [shared_ptr<T>]
    does not bind to a [const T&], and a [shared_ptr<T>] is not made from
    a pointer to a [shared_ptr<T>]. *)
Definition returns (e : CxxType * Category) (ret : CxxType) : bool :=
  same_type e.1 ret.

(** ** Machine integers *)

Definition size_t_max : Z := 2 ^ 64 - 1.

(** [static_cast<size_t>(z)] of a [difference_type]. *)
Definition to_size_t (z : Z) : Z := (z mod 2 ^ 64)%Z.

(** [static_cast<difference_type>(n)] of a [size_t], also the implicit
    conversion when a [size_t] is passed for a [difference_type]. *)
Definition to_difference_type (n : Z) : Z :=
  ((n + 2 ^ 63) mod 2 ^ 64 - 2 ^ 63)%Z.

(** ** Nodes as values *)

Module Ast.

Section Nodes.

Context {Kind Meta Properties : Type}.

(** The [Node] interface: [properties()], [children()] (a vector of nodes,
    held by value), [meta()] and [pruneWalk()], with the kind tag that
    decides the capabilities. *)
#[warnings="-register-all"]
Inductive Node : Type := mkNode {
  kind : Kind;
  children : list Node;
  meta : Meta;
  properties : Properties;
  pruneWalk : bool
}.

(** [setMeta(m)] *)
Definition setMeta (m : Meta) (n : Node) : Node :=
  mkNode (kind n) (children n) m (properties n) (pruneWalk n).

End Nodes.

Arguments Node : clear implicits.

End Ast.

Module NodeRange.

(** Addresses of heap-allocated nodes, and of [Range] objects. *)
Definition addr := positive.

(** [NodePtr = std::shared_ptr<Node>]; [None] is the null pointer. The
    same type stands for [std::shared_ptr<T>]: a successful
    [dynamic_pointer_cast] keeps the address. *)
Definition NodePtr := option addr.

(** [std::vector<NodePtr>::const_iterator]: a position in a vector. The
    position is a signed offset from the vector's first element, since
    iterator arithmetic is unchecked. Only iterators into the same vector
    are ever compared or subtracted by the code. *)
Record BaseIterator := mkBaseIterator {
  vec : list NodePtr;
  pos : Z
}.

(** [nodes.begin()] and [nodes.end()] *)
Definition vector_begin (nodes : list NodePtr) : BaseIterator :=
  mkBaseIterator nodes 0.
Definition vector_end (nodes : list NodePtr) : BaseIterator :=
  mkBaseIterator nodes (Z.of_nat (length nodes)).

(** [*i] on the vector iterator: defined only inside the vector. *)
Definition base_deref (i : BaseIterator) : Outcome NodePtr :=
  if (0 <=? pos i)%Z then
    match vec i !! Z.to_nat (pos i) with
    | Some p => Ok p
    | None => Undefined
    end
  else Undefined.

Definition base_add (i : BaseIterator) (n : Z) : BaseIterator :=
  mkBaseIterator (vec i) (pos i + n).

Section Ranges.

Context {Kind Capability Meta Properties : Type}.

(** The trait registry: which capabilities a node kind implements, that
    is, for which [T] a node of that kind derives from [T]. *)
Variable implements : Kind -> Capability -> bool.

(** The template parameter of [RangeIterator<T>] and [Range<T>]. *)
Variable T : Capability.

(** A node as stored behind a [NodePtr]. *)
Record Node := mkNode {
  kind : Kind;
  children : list addr;
  meta : Meta;
  properties : Properties;
  pruneWalk : bool
}.

Abbreviation Heap := (gmap addr Node).

(** [std::dynamic_pointer_cast<T>(p)]: null for a null pointer and for a
    node whose kind does not implement [T], the same address otherwise. A
    [shared_ptr] keeps its node alive, so the missing-cell case does not
    arise for pointers taken from the heap. *)
Definition dynamic_pointer_cast (h : Heap) (p : NodePtr) : NodePtr :=
  match p with
  | None => None
  | Some a =>
      match h !! a with
      | Some n => if implements (kind n) T then Some a else None
      | None => None
      end
  end.

(** An element satisfies capability [T] when it points to a node whose
    kind implements [T]. *)
Definition satisfies (h : Heap) (p : NodePtr) : bool :=
  match p with
  | Some a =>
      match h !! a with
      | Some n => implements (kind n) T
      | None => false
      end
  | None => false
  end.

(** *** [RangeIterator<T>] *)

Record RangeIterator := mkRangeIterator { _iter : BaseIterator }.

(** [node()] *)
Definition node (it : RangeIterator) : Outcome NodePtr :=
  base_deref (_iter it).

(** [value()]: cast, [assert(t)], return. *)
Definition value (h : Heap) (it : RangeIterator) : Outcome NodePtr :=
  p ← base_deref (_iter it);
  let t := dynamic_pointer_cast h p in
  assert (bool_decide (is_Some t));;
  Ok t.

(** The call [value()]: the return type of [value] is deduced from
    [return t;], a [std::shared_ptr<T>] returned by value. *)
Definition value_call : CxxType * Category := (SharedPtrT, PRValue).

(** [operator*]: [return value();], declared to return a
    [std::shared_ptr<T>]. *)
Definition deref (h : Heap) (it : RangeIterator) : Outcome NodePtr :=
  value h it.

Definition operator_star
  : Instantiated (Heap -> RangeIterator -> Outcome NodePtr) :=
  if returns value_call SharedPtrT then WellFormed deref else IllFormed.

(** [operator->]: [return &value();], declared to return a
    [std::shared_ptr<T>]. The operand of [&] is the temporary that
    [value()] returns. *)
Definition operator_arrow
  : Instantiated (Heap -> RangeIterator -> Outcome NodePtr) :=
  match address_of value_call with
  | Some e => if returns e SharedPtrT then WellFormed value else IllFormed
  | None => IllFormed
  end.

(** [operator==], [operator!=] *)
Definition iter_eqb (a b : RangeIterator) : bool :=
  (pos (_iter a) =? pos (_iter b))%Z.
Definition iter_neqb (a b : RangeIterator) : bool :=
  negb (iter_eqb a b).

(** [operator++()]; the postfix form returns the old iterator and leaves
    this one behind as the new value. *)
Definition incr (it : RangeIterator) : RangeIterator :=
  mkRangeIterator (base_add (_iter it) 1).
Definition post_incr (it : RangeIterator) : RangeIterator * RangeIterator :=
  (it, incr it).

(** [operator+=], [operator-=], [operator+], [operator-] with an offset *)
Definition iter_add (it : RangeIterator) (i : Z) : RangeIterator :=
  mkRangeIterator (base_add (_iter it) i).
Definition iter_sub (it : RangeIterator) (i : Z) : RangeIterator :=
  mkRangeIterator (base_add (_iter it) (- i)).

(** [operator-(const RangeIterator&)] *)
Definition iter_diff (a b : RangeIterator) : Z :=
  (pos (_iter a) - pos (_iter b))%Z.

(** *** [Range<T>] *)

Record Range := mkRange {
  _begin : RangeIterator;
  _end : RangeIterator
}.

(** [Range(begin, end)] *)
Definition Range_of_span (b e : BaseIterator) : Range :=
  mkRange (mkRangeIterator b) (mkRangeIterator e).

(** [Range(const std::vector<NodePtr>& nodes)] *)
Definition Range_of_vector (nodes : list NodePtr) : Range :=
  Range_of_span (vector_begin nodes) (vector_end nodes).

Definition begin (r : Range) : RangeIterator := mkRangeIterator (_iter (_begin r)).
Definition end_ (r : Range) : RangeIterator := mkRangeIterator (_iter (_end r)).

(** [size()] *)
Definition size (r : Range) : Z := to_size_t (iter_diff (_end r) (_begin r)).

(** [front()]: [return *_begin;], declared to return a [const T&]. The
    expression [*_begin] is the [std::shared_ptr<T>] that [operator*]
    returns. *)
Definition front : Instantiated (Heap -> Range -> Outcome NodePtr) :=
  match operator_star with
  | WellFormed star =>
      if returns value_call ConstRefT
      then WellFormed (fun h r => star h (_begin r))
      else IllFormed
  | IllFormed => IllFormed
  end.

(** [empty()] *)
Definition empty (r : Range) : bool := iter_eqb (_begin r) (_end r).

(** [operator[](size_t i)]: the index is converted to [difference_type]
    for the comparison and again for [_begin + i]. *)
Definition index (h : Heap) (r : Range) (i : Z) : Outcome NodePtr :=
  assert (to_difference_type i <? iter_diff (_end r) (_begin r))%Z;;
  deref h (iter_add (_begin r) (to_difference_type i)).

(** A range is a view of a span [[b, e)] of one vector when both ends
    point into that vector, in order. *)
Definition views (r : Range) (nodes : list NodePtr) (b e : nat) : Prop :=
  _iter (_begin r) = mkBaseIterator nodes (Z.of_nat b) ∧
  _iter (_end r) = mkBaseIterator nodes (Z.of_nat e) ∧
  (b ≤ e ≤ length nodes)%nat.

(** The elements of the span [[b, e)]. *)
Definition span (nodes : list NodePtr) (b e : nat) : list NodePtr :=
  take (e - b) (drop b nodes).

(** The client loop [for ( auto it = r.begin(); it != r.end(); ++it )]
    collecting [*it]. *)
Fixpoint iterate_from (fuel : nat) (h : Heap) (it e : RangeIterator)
  : Outcome (list NodePtr) :=
  if iter_neqb it e then
    match fuel with
    | O => OutOfFuel
    | S fuel' =>
        x ← deref h it;
        xs ← iterate_from fuel' h (incr it) e;
        Ok (x :: xs)
    end
  else Ok [].

Definition iterate (fuel : nat) (h : Heap) (r : Range) : Outcome (list NodePtr) :=
  iterate_from fuel h (begin r) (end_ r).

(** *** [Range::operator==] *)

(** [Range] objects live at addresses; [this == &other] compares those. *)
Abbreviation Objects := (gmap addr Range).

(** The [while ( x != _end )] loop: [*x++ == *y++] compares two
    [std::shared_ptr<T>], that is, the addresses they hold. *)
Fixpoint eq_loop (fuel : nat) (h : Heap) (x y e : RangeIterator) : Outcome bool :=
  if iter_neqb x e then
    match fuel with
    | O => OutOfFuel
    | S fuel' =>
        let '(x0, x') := post_incr x in
        let '(y0, y') := post_incr y in
        a ← deref h x0;
        b ← deref h y0;
        if negb (bool_decide (a = b)) then Ok false
        else eq_loop fuel' h x' y' e
    end
  else Ok true.

Definition Range_eq (fuel : nat) (h : Heap) (objs : Objects) (this other : addr)
  : Outcome bool :=
  match objs !! this, objs !! other with
  | Some r, Some o =>
      if bool_decide (this = other) then Ok true
      else if negb (size r =? size o)%Z then Ok false
      else eq_loop fuel h (_begin r) (_begin o) (_end r)
  | _, _ => Undefined
  end.

(** *** [Node::clone] and [Range::copy] *)

(** Modelled from the spec: [Node::clone], which [copy()] calls and whose
    definition is not part of the header. A clone is a newly allocated
    node with the kind, meta, properties and pruneWalk of the original,
    whose children are clones of the original's children, recursively. *)
Fixpoint clone_all (cl : Heap -> addr -> Outcome (Heap * addr))
    (h : Heap) (l : list addr) : Outcome (Heap * list addr) :=
  match l with
  | [] => Ok (h, [])
  | c :: l' =>
      r1 ← cl h c;
      r2 ← clone_all cl r1.1 l';
      Ok (r2.1, r1.2 :: r2.2)
  end.

Fixpoint clone (fuel : nat) (h : Heap) (a : addr) : Outcome (Heap * addr) :=
  match fuel with
  | O => OutOfFuel
  | S fuel' =>
      match h !! a with
      | None => Undefined
      | Some n =>
          r ← clone_all (clone fuel') h (children n);
          let a' := fresh (dom r.1) in
          Ok (<[a' := mkNode (kind n) r.2 (meta n) (properties n) (pruneWalk n)]> r.1, a')
      end
  end.

(** [i->clone()], given what [operator->] of the iterator does: the
    clone is taken of the node that [i->] hands out. *)
Definition clone_at (arrow : Heap -> RangeIterator -> Outcome NodePtr)
    (fuel : nat) (h : Heap) (i : RangeIterator) : Outcome (Heap * NodePtr) :=
  t ← arrow h i;
  match t with
  | Some a => r ← clone fuel h a; Ok (r.1, Some r.2)
  | None => Undefined
  end.

(** The loop of [copy()], [for ( auto i = _begin; i != _end; i++ )]
    pushing [i->clone()] onto [x]. The heap is threaded through the
    allocations. *)
Fixpoint copy_loop (arrow : Heap -> RangeIterator -> Outcome NodePtr)
    (fuel depth : nat) (h : Heap) (i e : RangeIterator)
    (x : list NodePtr) : Outcome (Heap * list NodePtr) :=
  if iter_neqb i e then
    match fuel with
    | O => OutOfFuel
    | S fuel' =>
        r ← clone_at arrow depth h i;
        copy_loop arrow fuel' depth r.1 (post_incr i).2 e (x ++ [r.2])
    end
  else Ok (h, x).

(** [copy()]: its body uses [operator->] of [RangeIterator<T>], so it can
    be instantiated only if that operator can. *)
Definition copy
  : Instantiated (nat -> nat -> Heap -> Range -> Outcome (Heap * list NodePtr)) :=
  match operator_arrow with
  | WellFormed arrow =>
      WellFormed (fun fuel depth h r =>
                    copy_loop arrow fuel depth h (_begin r) (_end r) [])
  | IllFormed => IllFormed
  end.

(** Modelled from the spec: content equality of nodes, which the spec
    names without defining it. The content of a node is the tree of kinds,
    metas, properties and prune flags below it; two nodes are equal by
    content when these trees are the same. *)
Fixpoint content (fuel : nat) (h : Heap) (a : addr)
  : option (Ast.Node Kind Meta Properties) :=
  match fuel with
  | O => None
  | S fuel' =>
      n ← h !! a;
      cs ← mapM (content fuel' h) (children n);
      Some (Ast.mkNode (kind n) cs (meta n) (properties n) (pruneWalk n))
  end.

Definition content_eq (h : Heap) (a b : addr) : Prop :=
  ∃ fuel t, content fuel h a = Some t ∧ content fuel h b = Some t.

(** Replacing the children of the node at [a] through the mutable
    [children()] accessor. *)
Definition set_children (h : Heap) (a : addr) (cs : list addr) : Heap :=
  match h !! a with
  | Some n => <[a := mkNode (kind n) cs (meta n) (properties n) (pruneWalk n)]> h
  | None => h
  end.

(** [h'] grows [h] when the nodes of [h] are in [h'] as they were, and
    the nodes that [h'] adds have their children among the added nodes. *)
Definition grows (h h' : Heap) : Prop :=
  h ⊆ h' ∧
  ∀ b n c, h' !! b = Some n → h !! b = None → c ∈ children n →
           h !! c = None ∧ is_Some (h' !! c).

(** Two nodes that agree on everything but their children. *)
Definition same_fields (n n' : Node) : Prop :=
  kind n' = kind n ∧ meta n' = meta n ∧
  properties n' = properties n ∧ pruneWalk n' = pruneWalk n.

(** What a successful clone of the node at [a], whose content is [t],
    looks like. *)
Definition cloned (d : nat) (h : Heap) (a : addr)
    (t : Ast.Node Kind Meta Properties) (res : Outcome (Heap * addr)) : Prop :=
  ∃ h' a', res = Ok (h', a') ∧ grows h h' ∧ h !! a' = None ∧
    (∃ n n', h !! a = Some n ∧ h' !! a' = Some n' ∧ same_fields n n') ∧
    content d h' a' = Some t.

(** [p'] is a clone, in [h'], of the node that [p] points to in [h]. *)
Definition clone_of (h h' : Heap) (p p' : NodePtr) : Prop :=
  ∃ a a', p = Some a ∧ p' = Some a' ∧ h !! a' = None ∧
    (∃ n n', h !! a = Some n ∧ h' !! a' = Some n' ∧ same_fields n n') ∧
    content_eq h' a a'.

(** The nodes below [a], [a] included. *)
Inductive reaches (h : Heap) : addr -> addr -> Prop :=
  | reaches_here a : reaches h a a
  | reaches_child a n c b :
      h !! a = Some n -> c ∈ children n -> reaches h c b -> reaches h a b.

End Ranges.

End NodeRange.

(** ** The tree walker *)

Module Walker.

Section Walk.

Context {Kind Meta Properties : Type}.

Abbreviation Node := (Ast.Node Kind Meta Properties).

(** A node of a tree is named by the child indices leading to it from the
    root. *)
Definition Path := list nat.

Inductive Order := PreOrder | PostOrder.

(** Modelled from the spec: the walker, of which only the [pruneWalk()]
    declaration is at hand. It visits a node and then its children from
    left to right (or the children first, in post-order), and does not
    descend into the children of a node whose [pruneWalk()] is true. The
    result lists the visited nodes in visiting order. *)
Fixpoint walk (order : Order) (path : Path) (n : Node) {struct n} : list Path :=
  let below :=
    if Ast.pruneWalk n then []
    else
      (fix descend (i : nat) (cs : list Node) {struct cs} : list Path :=
         match cs with
         | [] => []
         | c :: cs' => walk order (path ++ [i]) c ++ descend (S i) cs'
         end) 0%nat (Ast.children n) in
  match order with
  | PreOrder => path :: below
  | PostOrder => below ++ [path]
  end.

(** The loop over the children inside [walk], from child number [i] on. *)
Definition walk_children (order : Order) (path : Path)
  : nat -> list Node -> list Path :=
  fix descend (i : nat) (cs : list Node) {struct cs} : list Path :=
    match cs with
    | [] => []
    | c :: cs' => walk order (path ++ [i]) c ++ descend (S i) cs'
    end.

(** The walk of a whole tree. *)
Definition walk_tree (order : Order) (root : Node) : list Path :=
  walk order [] root.

(** The node at a path, if the tree has one there. *)
Fixpoint subtree (n : Node) (p : Path) : option Node :=
  match p with
  | [] => Some n
  | i :: p' => c ← Ast.children n !! i; subtree c p'
  end.

(** A path is open when the tree has a node there and no node strictly
    above it prunes. *)
Fixpoint open (n : Node) (p : Path) : bool :=
  match p with
  | [] => true
  | i :: p' =>
      negb (Ast.pruneWalk n) &&
      match Ast.children n !! i with
      | Some c => open c p'
      | None => false
      end
  end.

End Walk.

End Walker.

(** ** The operator documentation tables *)

Module DocToRst.

Definition NamespaceMappings : gmap string string :=
  {[ "signed_integer" := "integer";
     "unsigned_integer" := "integer";
     "struct_" := "struct" ]}.

(** [NamespaceMappings.get(ns, ns)] *)
Definition namespace (ns : string) : string :=
  default ns (NamespaceMappings !! ns).

(** One operand description of the dump, and [Operand.__init__]. *)
Record OperandEntry := mkOperandEntry {
  oe_const : string;
  oe_mutable : bool;
  oe_default : string;
  oe_id : string;
  oe_optional : bool;
  oe_doc : string;
  oe_type : string
}.

Record Operand := mkOperand {
  operand_const : string;
  operand_mutable : bool;
  operand_default : string;
  operand_id : string;
  operand_optional : bool;
  operand_doc : string;
  operand_type : string
}.

Definition Operand_init (m : OperandEntry) : Operand :=
  mkOperand (oe_const m) (oe_mutable m) (oe_default m) (oe_id m)
            (oe_optional m) (oe_doc m) (oe_type m).

(** One object of the JSON array read from standard input, with the keys
    that [Operator] and [Method] read. *)
Record Entry := mkEntry {
  e_kind : string;
  e_namespace : string;
  e_doc : string;
  e_operands : list OperandEntry;
  e_operator : string;
  e_rtype : string;
  e_commutative : bool;
  e_args : list OperandEntry;
  e_id : string;
  e_self : OperandEntry
}.

Record Operator := mkOperator {
  op_doc : string;
  op_kind : string;
  op_namespace : string;
  op_operands : list Operand;
  op_operator : string;
  op_rtype : string;
  op_commutative : bool
}.

(** [Operator.__init__] *)
Definition Operator_init (m : Entry) : Operator :=
  mkOperator (e_doc m) (e_kind m) (namespace (e_namespace m))
             (Operand_init <$> e_operands m) (e_operator m) (e_rtype m)
             (e_commutative m).

Record Method := mkMethod {
  m_args : list Operand;
  m_doc : string;
  m_id : string;
  m_kind : string;
  m_namespace : string;
  m_rtype : string;
  m_self : Operand
}.

(** [Method.__init__] *)
Definition Method_init (m : Entry) : Method :=
  mkMethod (Operand_init <$> e_args m) (e_doc m) (e_id m) (e_kind m)
           (namespace (e_namespace m)) (e_rtype m) (Operand_init (e_self m)).

(** [x = d.setdefault(k, []); x += [v]]: the list stored under [k] is
    extended in place. *)
Definition setdefault_append {A} (k : string) (v : A)
    (d : gmap string (list A)) : gmap string (list A) :=
  <[k := default [] (d !! k) ++ [v]]> d.

(** The two dictionaries the main loop fills. *)
Record Tables := mkTables {
  operators : gmap string (list Operator);
  methods : gmap string (list Method)
}.

Definition InInv_doc : string :=
  "Performs the inverse of the corresponding ``in`` operation.".

(** [m3 = copy.copy(m2); m3.kind = 'InInv'; m3.doc = ...] *)
Definition make_InInv (m2 : Operator) : Operator :=
  mkOperator InInv_doc "InInv" (op_namespace m2) (op_operands m2)
             (op_operator m2) (op_rtype m2) (op_commutative m2).

(** The body of [for op in meta]. *)
Definition main_step (st : Tables) (op : Entry) : Tables :=
  if String.eqb (e_kind op) "MemberCall" then
    let m1 := Method_init op in
    mkTables (operators st) (setdefault_append (m_namespace m1) m1 (methods st))
  else
    let m2 := Operator_init op in
    let ops := setdefault_append (op_namespace m2) m2 (operators st) in
    if String.eqb (op_kind m2) "In" then
      let m3 := make_InInv m2 in
      mkTables (setdefault_append (op_namespace m3) m3 ops) (methods st)
    else mkTables ops (methods st).

Definition main_loop (meta : list Entry) : Tables :=
  fold_left main_step meta (mkTables ∅ ∅).

(** The operators recorded under a namespace, [operators.get(ns, [])]. *)
Definition operators_of (st : Tables) (ns : string) : list Operator :=
  default [] (operators st !! ns).

(** What one entry of the dump contributes to the operators of namespace
    [ns]: nothing for a method or for another namespace, the operator
    itself, and for an [In] operator its [InInv] twin right after it. *)
Definition emitted (ns : string) (op : Entry) : list Operator :=
  if String.eqb (e_kind op) "MemberCall" then []
  else if negb (String.eqb (namespace (e_namespace op)) ns) then []
  else if String.eqb (e_kind op) "In"
       then [Operator_init op; make_InInv (Operator_init op)]
       else [Operator_init op].

Import Stdlib.Strings.Ascii.

(** [methods.get(ns, [])] *)
Definition methods_of (st : Tables) (ns : string) : list Method :=
  default [] (methods st !! ns).

(** *** Choosing the namespaces to write *)

(** The command line: [-d DIR] and [-t TYPES], each absent or a string. *)
Record Args := mkArgs {
  dir : option string;
  types : option string
}.

(** The truth value of an option of the command line: absent and the
    empty string both count as false. *)
Definition truthy (o : option string) : bool :=
  match o with
  | Some (String _ _) => true
  | _ => false
  end.

(** [s.split(sep)] for a separator of one character: every occurrence
    splits, so the result has one more element than [s] has separators. *)
Fixpoint split (sep : Ascii.ascii) (s : string) : list string :=
  match s with
  | EmptyString => [EmptyString]
  | String c s' =>
      if Ascii.eqb c sep then EmptyString :: split sep s'
      else match split sep s' with
           | w :: ws => String c w :: ws
           | [] => [String c EmptyString]
           end
  end.

(** [i.startswith(k)] *)
Definition startswith (i k : string) : bool := String.prefix k i.

(** [operators.keys() | methods.keys()] *)
Definition all_namespaces (st : Tables) : gset string :=
  dom (operators st) ∪ dom (methods st).

(** The inner loop [for i in ...: if i.startswith(k): keys.add(i)]. *)
Definition add_matching (all : gset string) (keys : gset string) (k : string)
  : gset string :=
  keys ∪ filter (λ i, startswith i k = true) all.

(** The set [keys] after the two [if]s; [None] is the exit with
    "need -t <type> or -d <dir>". *)
Definition select_keys (args : Args) (st : Tables) : option (gset string) :=
  if negb (truthy (dir args)) && negb (truthy (types args)) then None
  else
    let keys := if truthy (dir args) then all_namespaces st else ∅ in
    Some (if truthy (types args)
          then foldl (add_matching (all_namespaces st)) keys
                     (split ","%char (default EmptyString (types args)))
          else keys).

(** *** File names *)

(** [str.lower()], [str.replace(old, new)] for a non-empty [old],
    [str.endswith(suffix)] and the slice [s[:-1]], on ASCII strings, where
    a character is a byte. *)
Definition lower_char (c : Ascii.ascii) : ascii :=
  let n := Ascii.nat_of_ascii c in
  if (65 <=? n)%nat && (n <=? 90)%nat then Ascii.ascii_of_nat (n + 32) else c.

Fixpoint lower (s : string) : string :=
  match s with
  | EmptyString => EmptyString
  | String c s' => String (lower_char c) (lower s')
  end.

(** Replacement goes from left to right and does not look again at what
    it has replaced: after a match the rest of the match is skipped. *)
Fixpoint replace_from (old new : string) (skip : nat) (s : string) : string :=
  match s with
  | EmptyString => EmptyString
  | String c s' =>
      match skip with
      | S k => replace_from old new k s'
      | O =>
          if String.prefix old s
          then String.append new (replace_from old new (String.length old - 1) s')
          else String c (replace_from old new 0 s')
      end
  end.

Definition replace (old new s : string) : string := replace_from old new 0 s.

Definition endswith (s suffix : string) : bool :=
  (String.length suffix <=? String.length s)%nat &&
  String.eqb (String.substring (String.length s - String.length suffix)
                        (String.length suffix) s) suffix.

Fixpoint drop_last (s : string) : string :=
  match s with
  | EmptyString => EmptyString
  | String c EmptyString => EmptyString
  | String c s' => String c (drop_last s')
  end.

(** The name of the file for namespace [ns], before it is joined to the
    output directory. *)
Definition rst_file_name (ns : string) : string :=
  let fname := namespace ns in
  let fname := if endswith fname "_" then drop_last fname else fname in
  String.append (replace "_" "-" (replace "::" "-" (lower fname))) ".rst".

(** All characters of a string satisfy [P]. *)
Fixpoint all_chars (P : Ascii.ascii -> bool) (s : string) : bool :=
  match s with
  | EmptyString => true
  | String c s' => P c && all_chars P s'
  end.

Definition is_ascii (c : Ascii.ascii) : bool := (Ascii.nat_of_ascii c <? 128)%nat.
Definition is_upper (c : Ascii.ascii) : bool :=
  (65 <=? Ascii.nat_of_ascii c)%nat && (Ascii.nat_of_ascii c <=? 90)%nat.

(** Two colons in a row somewhere in the string. *)
Fixpoint has_double_colon (s : string) : bool :=
  match s with
  | String c1 ((String c2 _) as s') =>
      (Ascii.eqb c1 ":"%char && Ascii.eqb c2 ":"%char) || has_double_colon s'
  | _ => false
  end.

(** *** Writing one namespace *)

(** [print_unique(s)]: the state is the set [already_recorded] and what
    has been printed so far, one entry per call of [print]. *)
Definition print_unique (st : gset string * list string) (s : string)
  : gset string * list string :=
  if decide (s ∈ st.1) then st
  else ({[ s ]} ∪ st.1, st.2 ++ [String.append s (String "010"%char EmptyString)]).

(** [for x in l: print_unique(x)] from the state at the start of a
    namespace. *)
Definition print_all (l : list string) : gset string * list string :=
  foldl print_unique (∅, []) l.

(** The elements of a list, each once, in the order in which they first
    occur: the head, then the first occurrences of the rest without the
    head. *)
Fixpoint first_occurrences (l : list string) : list string :=
  match l with
  | [] => []
  | x :: l' => x :: filter (λ y, y ≠ x) (first_occurrences l')
  end.

(** [sorted(l)] on the renderings: the objects are compared by their
    [rst()] strings and only those strings are printed, so sorting the
    objects and rendering them is sorting the renderings. *)
Definition sorted (l : list string) : list string := merge_sort String.le l.

(** The string starts with a colon. *)
Definition starts_colon (s : string) : bool :=
  match s with
  | String c _ => Ascii.eqb c ":"%char
  | EmptyString => false
  end.

(** [print(".. rubric:: %sMethods\n" % prefix, file=out)] and the like. *)
Definition print_rubric (st : gset string * list string) (prefix title : string)
  : gset string * list string :=
  (st.1, st.2 ++ [String.append ".. rubric:: "
                    (String.append prefix
                       (String.append title (String "010"%char EmptyString)))]).

(** The body of [for ns in sorted(keys)] between opening and closing the
    output: what is printed for one namespace, given the renderings of its
    methods and of its operators. *)
Definition write_namespace (prefix : string)
    (methods_rst operators_rst : list string) : list string :=
  let st := (∅, []) in
  let x1 := sorted methods_rst in
  let st := match x1 with
            | [] => st
            | _ => foldl print_unique (print_rubric st prefix "Methods") (sorted x1)
            end in
  let x2 := sorted operators_rst in
  let st := match x2 with
            | [] => st
            | _ => foldl print_unique (print_rubric st prefix "Operators") (sorted x2)
            end in
  st.2.

End DocToRst.

(** ** A small tree used in the examples *)

Module Scenario.

Import NodeRange.

Inductive Kind := IntCtor | Sum | SignedInteger | Block.
Inductive Capability := Expression | Type_ | Statement.

(** Constants and sums are expressions, the integer type is a type and a
    block is a statement. *)
Definition implements (k : Kind) (c : Capability) : bool :=
  match k, c with
  | IntCtor, Expression | Sum, Expression => true
  | SignedInteger, Type_ => true
  | Block, Statement => true
  | _, _ => false
  end.

Definition Meta := string.
Definition Properties := list (string * string).

(** The sum [1 + 2] at address 3 with its operands at 1 and 2, the type
    of the sum at 4, and a block at 5 holding the sum. *)
Definition heap : gmap addr (@Node Kind Meta Properties) :=
  {[ 1%positive := mkNode IntCtor [] "a.hlt:1:1" [("value", "1")] false;
     2%positive := mkNode IntCtor [] "a.hlt:1:5" [("value", "2")] false;
     3%positive := mkNode Sum [1%positive; 2%positive] "a.hlt:1:1-1:5" [] false;
     4%positive := mkNode SignedInteger [] "a.hlt:1:1" [("width", "64")] true;
     5%positive := mkNode Block [3%positive] "a.hlt:1" [] false ]}.

(** Three expressions, and a vector with a type and a null pointer. *)
Definition exprs : list NodePtr := [Some 3; Some 1; Some 2]%positive.
Definition mixed : list NodePtr := [Some 4%positive; Some 1%positive; None].

(** A pruning node whose only child prunes as well. *)
Definition inner_pruned : Ast.Node Kind Meta Properties :=
  Ast.mkNode SignedInteger [] "a.hlt:2:3" [] true.
Definition pruned_twice : Ast.Node Kind Meta Properties :=
  Ast.mkNode Block [inner_pruned] "a.hlt:2" [] true.

(** A block that holds a sum marked as fully processed, which prunes and
    has its two operands as children, and a type. *)
Definition processed : Ast.Node Kind Meta Properties :=
  Ast.mkNode Block
    [ Ast.mkNode Sum
        [ Ast.mkNode IntCtor [] "a.hlt:1:1" [("value", "1")] false;
          Ast.mkNode IntCtor [] "a.hlt:1:5" [("value", "2")] false ]
        "a.hlt:1:1-1:5" [] true;
      Ast.mkNode SignedInteger [] "a.hlt:1:1" [] false ]
    "a.hlt:1" [] false.

(** A dump with an [In] operator of the signed integers, a [Sum] of the
    unsigned integers and a method of bytes. *)
Definition no_operand : DocToRst.OperandEntry :=
  DocToRst.mkOperandEntry "" false "" "" false "" "".
Definition set_operand : DocToRst.OperandEntry :=
  DocToRst.mkOperandEntry "const" false "" "op1" false "" "set<int<*>>".
Definition int_operand : DocToRst.OperandEntry :=
  DocToRst.mkOperandEntry "const" false "" "op0" false "" "int<*>".
Definition in_entry : DocToRst.Entry :=
  DocToRst.mkEntry "In" "signed_integer" "Tests membership."
    [int_operand; set_operand] "" "bool" false [] "" no_operand.
Definition sum_entry : DocToRst.Entry :=
  DocToRst.mkEntry "Sum" "unsigned_integer" "Adds two integers."
    [int_operand; int_operand] "" "uint<*>" true [] "" no_operand.
Definition method_entry : DocToRst.Entry :=
  DocToRst.mkEntry "MemberCall" "bytes" "Returns the length." [] "" "uint<64>"
    false [] "length" int_operand.
Definition dump : list DocToRst.Entry := [in_entry; method_entry; sum_entry].

End Scenario.

(** * Properties *)

(** ** Ranges and their iterators *)

Section RangeFacts.

Import NodeRange.

Context {Kind Capability Meta Properties : Type}.
Variable implements : Kind -> Capability -> bool.
Variable T : Capability.

Abbreviation Heap := (gmap addr (@Node Kind Meta Properties)).

Implicit Types (h : Heap) (p : NodePtr) (it : RangeIterator) (r : Range).

Lemma cast_satisfies h p :
  dynamic_pointer_cast implements T h p
  = if satisfies implements T h p then p else None.
Proof.
  destruct p as [a|]; simpl; [|done].
  destruct (h !! a) as [n|]; [|done].
  by destruct (implements (kind n) T).
Qed.

Lemma satisfies_not_null h p : satisfies implements T h p = true → is_Some p.
Proof. destruct p; [eauto | discriminate]. Qed.

Lemma value_satisfied h it p :
  node it = Ok p → satisfies implements T h p = true →
  value implements T h it = Ok p.
Proof.
  unfold node, value. intros -> Hs. simpl.
  rewrite cast_satisfies, Hs.
  by destruct (satisfies_not_null _ _ Hs) as [a ->].
Qed.

Lemma value_unsatisfied h it p :
  node it = Ok p → satisfies implements T h p = false →
  value implements T h it = AssertionFailure.
Proof.
  unfold node, value. intros -> Hs. simpl.
  by rewrite cast_satisfies, Hs.
Qed.

Lemma value_never_null h it : value implements T h it ≠ Ok None.
Proof.
  unfold value. destruct (base_deref (_iter it)) as [p| | |]; simpl; try done.
  by destruct (dynamic_pointer_cast implements T h p) as [a|] eqn:E.
Qed.

(** C1. Constructing a range over a span stores the two positions and
    looks at no element, so it cannot fail whatever the elements are. The
    capability is checked when an iterator is dereferenced: an element that
    satisfies [T] comes back as a non-null handle, an element that does not
    fails the assertion, and a null handle is never returned. *)
Theorem range_validates_at_dereference h (nodes : list NodePtr) (b e : Z) :
  (∃ r, Range_of_span (mkBaseIterator nodes b) (mkBaseIterator nodes e) = r ∧
        pos (_iter (_begin r)) = b ∧ pos (_iter (_end r)) = e ∧
        vec (_iter (_begin r)) = nodes ∧ vec (_iter (_end r)) = nodes) ∧
  (∀ it p, node it = Ok p →
     (satisfies implements T h p = true →
        deref implements T h it = Ok p ∧ p ≠ None) ∧
     (satisfies implements T h p = false →
        deref implements T h it = AssertionFailure)) ∧
  (∀ it, deref implements T h it ≠ Ok None).
Proof.
  split; [|split].
  - eexists. split; [reflexivity|]. by simpl.
  - intros it p Hn. split; intros Hs.
    + split; [by apply value_satisfied|].
      destruct (satisfies_not_null _ _ Hs) as [a ->]. done.
    + by eapply value_unsatisfied.
  - apply value_never_null.
Qed.

(** *** Size, front and indexed access *)

Lemma to_size_t_small z : (0 ≤ z < 2 ^ 64)%Z → to_size_t z = z.
Proof. intros Hz. unfold to_size_t. by apply Z.mod_small. Qed.

Lemma to_difference_type_small i :
  (0 ≤ i < 2 ^ 63)%Z → to_difference_type i = i.
Proof.
  intros Hi. unfold to_difference_type.
  rewrite Z.mod_small; lia.
Qed.

Lemma to_difference_type_large i :
  (2 ^ 63 ≤ i < 2 ^ 64)%Z → to_difference_type i = (i - 2 ^ 64)%Z.
Proof.
  intros Hi. unfold to_difference_type.
  replace (i + 2 ^ 63)%Z with ((i - 2 ^ 63) + 1 * 2 ^ 64)%Z by lia.
  rewrite Z.mod_add by lia. rewrite Z.mod_small; lia.
Qed.

Lemma views_diff r nodes b e :
  views r nodes b e → iter_diff (_end r) (_begin r) = (Z.of_nat e - Z.of_nat b)%Z.
Proof. intros (Hb & He & _). unfold iter_diff. by rewrite Hb, He. Qed.

Lemma base_deref_lookup nodes (k : nat) p :
  nodes !! k = Some p → base_deref (mkBaseIterator nodes (Z.of_nat k)) = Ok p.
Proof.
  intros Hk. unfold base_deref. simpl.
  destruct (Z.leb_spec 0 (Z.of_nat k)); [|lia].
  by rewrite Nat2Z.id, Hk.
Qed.

Lemma size_views r nodes b e :
  views r nodes b e → (Z.of_nat (length nodes) < 2 ^ 64)%Z →
  size r = Z.of_nat (e - b).
Proof.
  intros Hv Hlen. unfold size. rewrite (views_diff _ _ _ _ Hv).
  destruct Hv as (_ & _ & Hbe). rewrite to_size_t_small; lia.
Qed.

(** Inside the range, [r[i]] is the [i]-th element of the span. *)
Lemma index_in_range h r nodes b e (i : nat) p :
  views r nodes b e → (Z.of_nat (length nodes) < 2 ^ 63)%Z →
  (i < e - b)%nat → nodes !! (b + i)%nat = Some p →
  satisfies implements T h p = true →
  index implements T h r (Z.of_nat i) = Ok p.
Proof.
  intros Hv Hlen Hi Hp Hs. unfold index.
  rewrite (views_diff _ _ _ _ Hv).
  destruct Hv as (Hb & He & Hbe).
  rewrite to_difference_type_small by lia.
  destruct (Z.ltb_spec (Z.of_nat i) (Z.of_nat e - Z.of_nat b)); [|lia]. simpl.
  apply value_satisfied; [|done].
  unfold node, iter_add, base_add. simpl. rewrite Hb. simpl.
  rewrite <- Nat2Z.inj_add. by apply base_deref_lookup.
Qed.

(** From [size()] up to the largest [difference_type], the assertion of
    [r[i]] fails. *)
Lemma index_asserts_below_sign_bit h r nodes b e (i : Z) :
  views r nodes b e → (Z.of_nat e - Z.of_nat b ≤ i < 2 ^ 63)%Z →
  index implements T h r i = AssertionFailure.
Proof.
  intros Hv Hi. unfold index. rewrite (views_diff _ _ _ _ Hv).
  destruct Hv as (_ & _ & Hbe).
  rewrite to_difference_type_small by lia.
  by destruct (Z.ltb_spec i (Z.of_nat e - Z.of_nat b)); [lia|].
Qed.

(** An index with the top bit set becomes negative in the conversion, so
    the assertion lets it through and the access lands before [_begin]. *)
Lemma index_wraps_above_sign_bit h r nodes b e (i : Z) :
  views r nodes b e → (2 ^ 63 ≤ i < 2 ^ 64)%Z →
  index implements T h r i
  = deref implements T h (iter_add (_begin r) (i - 2 ^ 64)).
Proof.
  intros Hv Hi. unfold index. rewrite (views_diff _ _ _ _ Hv).
  destruct Hv as (_ & _ & Hbe).
  rewrite to_difference_type_large by lia.
  by destruct (Z.ltb_spec (i - 2 ^ 64) (Z.of_nat e - Z.of_nat b)); [|lia].
Qed.

Lemma operator_star_is_deref :
  @operator_star Kind Capability Meta Properties implements T
  = WellFormed (deref implements T).
Proof. reflexivity. Qed.

(** C6. A range over a vector of three elements has size 3, and the range
    over the span from position 1 to position 3 of that vector has size 2.
    Its [front()], however, cannot be instantiated: it is declared to
    return a [const T&] and returns [*_begin], a [std::shared_ptr<T>], so
    it hands out no element at all. The position is not at fault: [*_begin]
    of the narrowed range is the element at index 1 of the vector, checked
    for the capability. *)
Theorem front_of_narrowed_range_is_ill_formed h (a b c : NodePtr) :
  let nodes := [a; b; c] in
  let narrowed := Range_of_span (base_add (vector_begin nodes) 1)
                                (base_add (vector_begin nodes) 3) in
  size (Range_of_vector nodes) = 3%Z ∧
  size narrowed = 2%Z ∧
  @front Kind Capability Meta Properties implements T = IllFormed ∧
  nodes !! 1%nat = Some b ∧
  deref implements T h (_begin narrowed)
  = if satisfies implements T h b then Ok b else AssertionFailure.
Proof.
  intros nodes narrowed. repeat split; try reflexivity.
  destruct (satisfies implements T h b) eqn:Hs.
  - by apply value_satisfied.
  - by eapply value_unsatisfied.
Qed.

(** *** Iteration *)

Lemma span_nil nodes (k : nat) : span nodes k k = [].
Proof. unfold span. by rewrite Nat.sub_diag. Qed.

Lemma span_cons nodes (k e : nat) :
  (k < e ≤ length nodes)%nat →
  ∃ p, nodes !! k = Some p ∧ span nodes k e = p :: span nodes (S k) e.
Proof.
  intros Hk. destruct (lookup_lt_is_Some_2 nodes k) as [p Hp]; [lia|].
  exists p. split; [done|]. unfold span.
  rewrite (drop_S _ _ _ Hp).
  replace (e - k)%nat with (S (e - S k)) by lia. done.
Qed.

Lemma span_length nodes (b e : nat) :
  (b ≤ e ≤ length nodes)%nat → length (span nodes b e) = (e - b)%nat.
Proof. intros Hbe. unfold span. rewrite length_take, length_drop. lia. Qed.

Lemma span_lookup nodes (b e k : nat) :
  (k < e - b)%nat → span nodes b e !! k = nodes !! (b + k)%nat.
Proof. intros Hk. unfold span. by rewrite lookup_take_lt, lookup_drop. Qed.

Abbreviation iter_at nodes k := (mkRangeIterator (mkBaseIterator nodes (Z.of_nat k))).

Lemma iter_neqb_at nodes nodes' (k e : nat) :
  iter_neqb (iter_at nodes k) (iter_at nodes' e) = negb (bool_decide (k = e)).
Proof.
  unfold iter_neqb, iter_eqb. simpl. f_equal.
  destruct (Z.eqb_spec (Z.of_nat k) (Z.of_nat e)).
  - rewrite bool_decide_eq_true_2; [done | lia].
  - rewrite bool_decide_eq_false_2; [done | lia].
Qed.

Lemma incr_at nodes (k : nat) : incr (iter_at nodes k) = iter_at nodes (S k).
Proof. unfold incr, base_add. simpl. do 2 f_equal. lia. Qed.

Lemma deref_at h nodes (k : nat) p :
  nodes !! k = Some p → satisfies implements T h p = true →
  deref implements T h (iter_at nodes k) = Ok p.
Proof.
  intros Hk Hs. unfold deref. apply value_satisfied; [|done].
  by apply base_deref_lookup.
Qed.

Lemma iterate_from_span h nodes (n : nat) : ∀ (k e fuel : nat),
  (e - k = n)%nat → (k ≤ e ≤ length nodes)%nat →
  Forall (λ p, satisfies implements T h p = true) (span nodes k e) →
  (n ≤ fuel)%nat →
  iterate_from implements T fuel h (iter_at nodes k) (iter_at nodes e)
  = Ok (span nodes k e).
Proof.
  induction n as [|n IH]; intros k e fuel Hn Hke Hall Hfuel.
  - assert (k = e) as -> by lia. rewrite span_nil.
    destruct fuel; simpl; by rewrite iter_neqb_at, bool_decide_eq_true_2.
  - destruct fuel as [|fuel]; [lia|].
    destruct (span_cons nodes k e) as (p & Hp & Hspan); [lia|].
    rewrite Hspan in Hall |- *. apply Forall_cons in Hall as [Hs Hall].
    cbn [iterate_from]. rewrite iter_neqb_at, bool_decide_eq_false_2 by lia.
    cbn [negb]. rewrite (deref_at _ _ _ _ Hp Hs), incr_at.
    rewrite (IH (S k) e fuel) by (done || lia). done.
Qed.

(** C2. Over the span from [i] to [j] of a vector whose elements there
    satisfy [T], the loop from [begin()] to [end()] terminates and yields
    a list of [j - i] handles whose [k]-th entry is the element at
    position [i + k] of the vector: every element once, in the vector's
    order. *)
Theorem iteration_preserves_order h (nodes : list NodePtr) (i j fuel : nat) :
  (i ≤ j ≤ length nodes)%nat →
  Forall (λ p, satisfies implements T h p = true) (span nodes i j) →
  (j - i ≤ fuel)%nat →
  ∃ handles,
    iterate implements T fuel h
      (Range_of_span (base_add (vector_begin nodes) (Z.of_nat i))
                     (base_add (vector_begin nodes) (Z.of_nat j)))
    = Ok handles ∧
    length handles = (j - i)%nat ∧
    ∀ k, (k < j - i)%nat → handles !! k = nodes !! (i + k)%nat.
Proof.
  intros Hij Hall Hfuel. exists (span nodes i j). split; [|split].
  - unfold iterate, begin, end_, Range_of_span, base_add, vector_begin. simpl.
    by apply (iterate_from_span h nodes (j - i)).
  - by apply span_length.
  - intros k Hk. by apply span_lookup.
Qed.

(** *** Equality of two ranges *)

Lemma eq_loop_spans h nodes1 nodes2 (n : nat) : ∀ (k1 k2 e1 fuel : nat),
  (e1 - k1 = n)%nat → (k1 ≤ e1 ≤ length nodes1)%nat →
  (k2 + n ≤ length nodes2)%nat →
  Forall (λ p, satisfies implements T h p = true) (span nodes1 k1 e1) →
  Forall (λ p, satisfies implements T h p = true) (span nodes2 k2 (k2 + n)) →
  (n ≤ fuel)%nat →
  eq_loop implements T fuel h (iter_at nodes1 k1) (iter_at nodes2 k2)
    (iter_at nodes1 e1)
  = Ok (bool_decide (span nodes1 k1 e1 = span nodes2 k2 (k2 + n))).
Proof.
  induction n as [|n IH]; intros k1 k2 e1 fuel Hn H1 H2 Hall1 Hall2 Hfuel.
  - assert (k1 = e1) as -> by lia.
    rewrite Nat.add_0_r, !span_nil.
    destruct fuel; simpl; by rewrite iter_neqb_at, bool_decide_eq_true_2.
  - destruct fuel as [|fuel]; [lia|].
    destruct (span_cons nodes1 k1 e1) as (p1 & Hp1 & Hs1); [lia|].
    destruct (span_cons nodes2 k2 (k2 + S n)) as (p2 & Hp2 & Hs2); [lia|].
    rewrite Hs1 in Hall1 |- *. rewrite Hs2 in Hall2 |- *.
    apply Forall_cons in Hall1 as [Hsat1 Hall1].
    apply Forall_cons in Hall2 as [Hsat2 Hall2].
    cbn [eq_loop]. rewrite iter_neqb_at, bool_decide_eq_false_2 by lia.
    cbn [negb post_incr].
    rewrite (deref_at _ _ _ _ Hp1 Hsat1), (deref_at _ _ _ _ Hp2 Hsat2).
    cbn [mbind Outcome_bind]. rewrite !incr_at.
    replace (k2 + S n)%nat with (S k2 + n)%nat in * by lia.
    destruct (decide (p1 = p2)) as [->|Hne].
    + rewrite bool_decide_eq_true_2 by done. cbn [negb].
      rewrite (IH (S k1) (S k2) e1 fuel) by (done || lia).
      f_equal. apply bool_decide_ext. split; [by intros ->|by intros [= ->]].
    + rewrite bool_decide_eq_false_2 by done. cbn [negb].
      rewrite bool_decide_eq_false_2; [done|]. by intros [= ? _].
Qed.

(** *** Cloning *)

Lemma grows_refl h : grows h h.
Proof. split; [done|]. intros b n c Hb Hn. congruence. Qed.

Lemma grows_trans h0 h1 h2 : grows h0 h1 → grows h1 h2 → grows h0 h2.
Proof.
  intros [Hsub1 Hnew1] [Hsub2 Hnew2]. split; [by etrans|].
  intros b n c Hb H0 Hc. destruct (h1 !! b) as [n1|] eqn:E1.
  - assert (n1 = n) as ->.
    { pose proof (lookup_weaken _ _ _ _ E1 Hsub2). congruence. }
    destruct (Hnew1 b n c E1 H0 Hc) as [Hc0 [m Hm]].
    split; [done|]. exists m. by eapply lookup_weaken.
  - destruct (Hnew2 b n c Hb E1 Hc) as [Hc1 Hc2].
    split; [|done]. by eapply lookup_weaken_None.
Qed.

Lemma grows_alloc h h1 (a' : addr) (n : Node) :
  grows h h1 → h1 !! a' = None →
  (∀ c, c ∈ children n → h !! c = None ∧ is_Some (h1 !! c)) →
  grows h (<[a' := n]> h1).
Proof.
  intros [Hsub Hnew] Hfresh Hcs.
  assert (h1 ⊆ <[a' := n]> h1) as Hins by (by apply insert_subseteq).
  split; [by etrans|].
  intros b m c Hb H0 Hc. destruct (decide (b = a')) as [->|Hne].
  - rewrite lookup_insert_eq in Hb. injection Hb as <-.
    destruct (Hcs c Hc) as [Hc0 [k Hk]].
    split; [done|]. exists k. by eapply lookup_weaken.
  - rewrite lookup_insert_ne in Hb by done.
    destruct (Hnew b m c Hb H0 Hc) as [Hc0 [k Hk]].
    split; [done|]. exists k. by eapply lookup_weaken.
Qed.

Lemma content_unfold (d : nat) h (a : addr) :
  content (S d) h a
  = n ← h !! a;
    cs ← mapM (content d h) (children n);
    Some (Ast.mkNode (kind n) cs (meta n) (properties n) (pruneWalk n)).
Proof. reflexivity. Qed.

Lemma content_weaken (d : nat) : ∀ h h' (a : addr) t,
  h ⊆ h' → content d h a = Some t → content d h' a = Some t.
Proof.
  induction d as [|d IH]; intros h h' a t Hsub; [discriminate|].
  rewrite !content_unfold.
  destruct (h !! a) as [n|] eqn:Ea; [|discriminate].
  rewrite (lookup_weaken _ _ _ _ Ea Hsub). simpl.
  destruct (mapM (content d h) (children n)) as [cs|] eqn:Ecs; [|discriminate].
  intros Ht. apply mapM_Some in Ecs.
  assert (mapM (content d h') (children n) = Some cs) as ->; [|done].
  apply mapM_Some. eapply Forall2_impl; [exact Ecs|]. intros; by eapply IH.
Qed.

Lemma clone_all_spec (d : nat) (cl : Heap → addr → Outcome (Heap * addr)) :
  (∀ h a t, content d h a = Some t → cloned d h a t (cl h a)) →
  ∀ (l : list addr) h ts,
    mapM (content d h) l = Some ts →
    ∃ h' l', clone_all cl h l = Ok (h', l') ∧ grows h h' ∧
      Forall (λ c, h !! c = None ∧ is_Some (h' !! c)) l' ∧
      mapM (content d h') l' = Some ts.
Proof.
  intros Hcl. induction l as [|c l IH]; intros h ts Hts.
  - injection Hts as <-. exists h, []. split; [done|].
    split; [apply grows_refl|]. by split.
  - apply mapM_Some in Hts.
    apply Forall2_cons_inv_l in Hts as (t & ts' & Ht & Hts' & ->).
    destruct (Hcl h c t Ht) as (h1 & c' & Hres & Hg1 & Hc' & _ & Hcont).
    assert (mapM (content d h1) l = Some ts') as Hrest.
    { apply mapM_Some. eapply Forall2_impl; [exact Hts'|].
      intros x y Hxy. eapply content_weaken; [apply Hg1 | exact Hxy]. }
    destruct (IH h1 ts' Hrest) as (h2 & l' & Hres2 & Hg2 & Hl' & Hcont2).
    exists h2, (c' :: l').
    split; [cbn [clone_all]; rewrite Hres; cbn; by rewrite Hres2|].
    split; [by eapply grows_trans|]. split.
    + constructor.
      * split; [done|].
        assert (is_Some (h1 !! c')) as [m Hm].
        { destruct d; [discriminate|]. rewrite content_unfold in Hcont.
          destruct (h1 !! c'); [eauto | discriminate]. }
        exists m. eapply lookup_weaken; [exact Hm | apply Hg2].
      * eapply Forall_impl; [exact Hl'|]. intros x [Hx1 Hx2].
        split; [|done]. eapply lookup_weaken_None; [exact Hx1 | apply Hg1].
    + apply mapM_Some. constructor.
      * eapply content_weaken; [apply Hg2 | exact Hcont].
      * by apply mapM_Some.
Qed.

(** Given fuel for the depth of the tree below [a], [clone] returns. *)
Lemma clone_spec (d : nat) : ∀ h (a : addr) t,
  content d h a = Some t → cloned d h a t (clone d h a).
Proof.
  induction d as [|d IH]; intros h a t; [discriminate|].
  rewrite content_unfold. cbn [clone].
  destruct (h !! a) as [n|] eqn:Ea; [|discriminate]. cbn.
  destruct (mapM (content d h) (children n)) as [cs|] eqn:Ecs; [|discriminate].
  intros [= <-].
  destruct (clone_all_spec d (clone d) IH _ _ _ Ecs)
    as (h1 & l' & Hres & Hg & Hl' & Hcont).
  rewrite Hres. cbn.
  set (a' := fresh (dom h1)).
  assert (h1 !! a' = None) as Hfresh.
  { apply not_elem_of_dom. apply is_fresh. }
  set (n' := mkNode (kind n) l' (meta n) (properties n) (pruneWalk n)).
  exists (<[a' := n']> h1), a'. split; [done|]. split; [|split; [|split]].
  - apply grows_alloc; [done..|]. intros c Hc.
    by apply (proj1 (Forall_forall _ _) Hl').
  - eapply lookup_weaken_None; [exact Hfresh | apply Hg].
  - exists n, n'. split; [done|]. split; [by rewrite lookup_insert_eq|].
    by repeat split.
  - rewrite content_unfold, lookup_insert_eq. cbn.
    assert (mapM (content d (<[a' := n']> h1)) l' = Some cs) as ->; [|done].
    apply mapM_Some. apply mapM_Some in Hcont.
    eapply Forall2_impl; [exact Hcont|]. intros x y Hxy.
    eapply content_weaken; [|exact Hxy]. by apply insert_subseteq.
Qed.

(** Replacing the children of a node that [h] does not have leaves the
    nodes of [h] alone. *)
Lemma set_children_frame h h' (c : addr) (cs : list addr) :
  h ⊆ h' → h !! c = None → h ⊆ set_children h' c cs.
Proof.
  intros Hsub Hc. unfold set_children. destruct (h' !! c) as [n|]; [|done].
  apply map_subseteq_spec. intros x m Hx.
  assert (c ≠ x) by congruence.
  rewrite lookup_insert_ne by done. by eapply lookup_weaken.
Qed.

(** Everything below a node added to the heap has been added with it. *)
Lemma reaches_added h h' (a' c : addr) :
  grows h h' → reaches h' a' c →
  h !! a' = None → is_Some (h' !! a') →
  h !! c = None ∧ is_Some (h' !! c).
Proof.
  intros [Hsub Hnew] Hr. induction Hr as [a|a n c b Ha Hc Hr IH]; [done|].
  intros Ha0 _. destruct (Hnew a n c Ha Ha0 Hc) as [Hc0 Hc1]. by apply IH.
Qed.

Lemma satisfies_weaken h h' p :
  h ⊆ h' → satisfies implements T h p = true → satisfies implements T h' p = true.
Proof.
  intros Hsub. destruct p as [a|]; simpl; [|done].
  destruct (h !! a) as [n|] eqn:Ea; [|done].
  by rewrite (lookup_weaken _ _ _ _ Ea Hsub).
Qed.

Lemma clone_of_weaken h h' h'' p p' :
  h' ⊆ h'' → clone_of h h' p p' → clone_of h h'' p p'.
Proof.
  intros Hsub (a & a' & -> & -> & Hnew & (n & n' & Hn & Hn' & Hf) & (d & t & Ht & Ht')).
  exists a, a'. repeat split; try done.
  - exists n, n'. repeat split; try done; try apply Hf.
    by eapply lookup_weaken.
  - exists d, t. split; by eapply content_weaken.
Qed.

(** The loop of [copy()] itself is sound: run with [operator*] where the
    source has [operator->], it returns one clone per element, in order. *)
Lemma copy_loop_spec h nodes (depth n : nat) : ∀ (k e fuel : nat) hk x,
  (e - k = n)%nat → (k ≤ e ≤ length nodes)%nat → grows h hk → (n ≤ fuel)%nat →
  Forall (λ p, satisfies implements T h p = true) (span nodes k e) →
  Forall (λ p, ∀ a, p = Some a → is_Some (content depth h a)) (span nodes k e) →
  ∃ h' cl,
    copy_loop (deref implements T) fuel depth hk
      (iter_at nodes k) (iter_at nodes e) x
    = Ok (h', x ++ cl) ∧
    grows h h' ∧ hk ⊆ h' ∧
    Forall2 (clone_of h h') (span nodes k e) cl.
Proof.
  induction n as [|n IH]; intros k e fuel hk x Hn Hke Hg Hfuel Hsat Hread.
  - assert (k = e) as -> by lia. rewrite span_nil. exists hk, [].
    rewrite app_nil_r. split; [|split; [done|split; [done|constructor]]].
    destruct fuel; simpl; by rewrite iter_neqb_at, bool_decide_eq_true_2.
  - destruct fuel as [|fuel]; [lia|].
    destruct (span_cons nodes k e) as (p & Hp & Hspan); [lia|].
    rewrite Hspan in Hsat, Hread |- *.
    apply Forall_cons in Hsat as [Hs Hsat].
    apply Forall_cons in Hread as [Hr Hread].
    destruct (satisfies_not_null _ _ Hs) as [a ->].
    destruct (Hr a eq_refl) as [t Ht].
    pose proof (content_weaken _ _ _ _ _ (proj1 Hg) Ht) as Htk.
    destruct (clone_spec depth hk a t Htk)
      as (h1 & a' & Hres & Hg1 & Hnew & (n0 & n' & Hn0 & Hn' & Hf) & Hcont).
    assert (grows h h1) as Hgh1 by (by eapply grows_trans).
    destruct (IH (S k) e fuel h1 (x ++ [Some a'])) as (h' & cl & Hloop & Hg' & Hsub' & Hcl);
      [lia | lia | done | lia | done | done |].
    exists h', (Some a' :: cl). split; [|split; [done|split]].
    + cbn [copy_loop]. rewrite iter_neqb_at, bool_decide_eq_false_2 by lia.
      cbn [negb]. unfold clone_at.
      rewrite (deref_at hk nodes k (Some a) Hp)
        by (eapply satisfies_weaken; [apply Hg | done]).
      cbn. rewrite Hres. cbn. rewrite incr_at.
      rewrite <- app_assoc in Hloop. exact Hloop.
    + etrans; [apply Hg1 | done].
    + constructor; [|done].
      apply (clone_of_weaken h h1 h'); [done|].
      exists a, a'. repeat split; try done.
      * eapply lookup_weaken_None; [exact Hnew | apply Hg].
      * destruct (h !! a) as [m|] eqn:Ea.
        -- exists m, n'. pose proof (lookup_weaken _ _ _ _ Ea (proj1 Hg)).
           assert (m = n0) as -> by congruence. by repeat split; try apply Hf.
        -- destruct depth; [discriminate|]. rewrite content_unfold, Ea in Ht.
           discriminate.
      * exists depth, t. split; [|done]. eapply content_weaken; [apply Hg1 | done].
Qed.

(** C3. [copy()] cannot be instantiated, for any range: its loop calls
    [i->clone()], and [operator->] of the iterator returns [&value()], the
    address of the temporary that [value()] returns, which is not an
    expression of the language. No vector of clones is returned. *)
Theorem copy_cannot_be_instantiated :
  @operator_arrow Kind Capability Meta Properties implements T = IllFormed ∧
  @copy Kind Capability Meta Properties implements T = IllFormed.
Proof. split; reflexivity. Qed.

(** *** Equality of a range with itself *)

(** C9. Comparing a range object with itself answers true at once: for
    every range, whatever its elements and positions, under every heap and
    with no fuel for the element loop at all. No element is dereferenced,
    so elements that would fail the capability assertion do no harm. *)
Theorem range_equals_itself (fuel : nat) h (objs : gmap addr Range) (this : addr) r :
  objs !! this = Some r →
  Range_eq implements T fuel h objs this this = Ok true ∧
  Range_eq implements T 0 (∅ : Heap) objs this this = Ok true.
Proof.
  intros Hr. unfold Range_eq. rewrite Hr.
  by rewrite bool_decide_eq_true_2.
Qed.

End RangeFacts.

Lemma range_validates_at_dereference_witness :
  let it := NodeRange.mkRangeIterator (NodeRange.mkBaseIterator Scenario.exprs 1) in
  NodeRange.deref Scenario.implements Scenario.Expression Scenario.heap it
  = Ok (Some 1%positive).
Proof.
  intros it.
  apply (range_validates_at_dereference Scenario.implements Scenario.Expression
           Scenario.heap Scenario.exprs 0 3); reflexivity.
Defined.

Lemma iteration_preserves_order_witness :
  ∃ handles,
    NodeRange.iterate Scenario.implements Scenario.Expression 2 Scenario.heap
      (NodeRange.Range_of_span
         (NodeRange.base_add (NodeRange.vector_begin Scenario.exprs) 1)
         (NodeRange.base_add (NodeRange.vector_begin Scenario.exprs) 3))
    = Ok handles ∧
    length handles = 2%nat ∧
    ∀ k, (k < 2)%nat → handles !! k = Scenario.exprs !! (1 + k)%nat.
Proof.
  apply (iteration_preserves_order Scenario.implements Scenario.Expression
           Scenario.heap Scenario.exprs 1 3 2).
  - simpl. lia.
  - repeat constructor.
  - lia.
Defined.

(** A range over a type and a null pointer, taken as a range of
    expressions: dereferencing its begin fails the assertion, and still
    it equals itself. *)
Lemma range_equals_itself_witness :
  let r := NodeRange.Range_of_vector Scenario.mixed in
  NodeRange.deref Scenario.implements Scenario.Expression Scenario.heap
    (NodeRange._begin r)
  = AssertionFailure ∧
  NodeRange.Range_eq Scenario.implements Scenario.Expression 0 Scenario.heap
    {[ 1%positive := r ]} 1%positive 1%positive = Ok true.
Proof.
  intros r. split; [reflexivity|].
  apply (range_equals_itself Scenario.implements Scenario.Expression 0
           Scenario.heap {[ 1%positive := r ]} 1%positive r).
  reflexivity.
Defined.

(** C5. With [r] the range over positions 1 to 3 of a three-element
    vector, [r[SIZE_MAX]] is out of range, and yet the assertion passes
    (the index converts to -1) and the access returns the element of the
    vector that lies before the range. *)
Theorem index_past_sign_bit_escapes_assertion :
  let r := NodeRange.Range_of_span (NodeRange.mkBaseIterator Scenario.exprs 1)
                                   (NodeRange.mkBaseIterator Scenario.exprs 3) in
  NodeRange.size r = 2%Z ∧
  to_difference_type size_t_max = (-1)%Z ∧
  NodeRange.index Scenario.implements Scenario.Expression Scenario.heap r size_t_max
  = Ok (Some 3%positive) ∧
  Scenario.exprs !! 0%nat = Some (Some 3%positive).
Proof. repeat split; reflexivity. Qed.

(** ** The walker *)

Section WalkerFacts.

Import Walker.

Context {Kind Meta Properties : Type}.

Abbreviation ANode := (Ast.Node Kind Meta Properties).

Implicit Types (n root : ANode) (p q pre : Path) (o : Order).

(** Induction over a node with the property at hand for all its
    children. *)
Fixpoint Node_nested_ind (P : ANode → Prop)
    (step : ∀ k cs m pr pw, Forall P cs → P (Ast.mkNode k cs m pr pw))
    (n : ANode) {struct n} : P n :=
  match n with
  | Ast.mkNode k cs m pr pw =>
      step k cs m pr pw
        ((fix all (l : list ANode) : Forall P l :=
            match l with
            | [] => @List.Forall_nil _ P
            | c :: l' => @List.Forall_cons _ P c l' (Node_nested_ind P step c) (all l')
            end) cs)
  end.

Lemma walk_unfold o pre n :
  walk o pre n
  = let below := if Ast.pruneWalk n then []
                 else walk_children o pre 0 (Ast.children n) in
    match o with
    | PreOrder => pre :: below
    | PostOrder => below ++ [pre]
    end.
Proof. by destruct n. Qed.

Lemma elem_of_walk_top o pre n p :
  p ∈ walk o pre n ↔
  p = pre ∨ (Ast.pruneWalk n = false ∧
             p ∈ walk_children o pre 0 (Ast.children n)).
Proof.
  rewrite walk_unfold. cbv zeta.
  destruct o, (Ast.pruneWalk n);
    rewrite ?elem_of_cons, ?elem_of_app, ?list_elem_of_singleton, ?elem_of_nil;
    intuition congruence.
Qed.

Lemma elem_of_walk_children o pre (cs : list ANode) :
  Forall (λ c, ∀ pre p, p ∈ walk o pre c ↔ ∃ q, p = pre ++ q ∧ open c q = true) cs →
  ∀ (i : nat) p,
    p ∈ walk_children o pre i cs ↔
    ∃ (j : nat) c q, cs !! j = Some c ∧ p = pre ++ (i + j)%nat :: q ∧ open c q = true.
Proof.
  induction 1 as [|c cs Hc _ IH]; intros i p; cbn [walk_children].
  - rewrite elem_of_nil. split; [done|]. by intros (j & c & q & Hj & _).
  - rewrite elem_of_app, Hc, IH. split.
    + intros [(q & -> & Hq)|(j & c' & q & Hj & -> & Hq)].
      * exists 0%nat, c, q. rewrite Nat.add_0_r, <- app_assoc. done.
      * exists (S j), c', q. split; [done|]. split; [|done].
        by replace (i + S j)%nat with (S i + j)%nat by lia.
    + intros (j & c' & q & Hj & -> & Hq). destruct j as [|j].
      * injection Hj as <-. left. exists q.
        rewrite Nat.add_0_r, <- app_assoc. done.
      * right. exists j, c', q. split; [done|]. split; [|done].
        by replace (i + S j)%nat with (S i + j)%nat by lia.
Qed.

(** The walk visits exactly the open paths. *)
Lemma elem_of_walk o n : ∀ pre p,
  p ∈ walk o pre n ↔ ∃ q, p = pre ++ q ∧ open n q = true.
Proof.
  induction n as [k cs m pr pw IH] using Node_nested_ind. intros pre p.
  rewrite elem_of_walk_top, (elem_of_walk_children o pre cs IH). cbn. split.
  - intros [->|[-> (j & c & q & Hj & -> & Hq)]].
    + exists []. by rewrite app_nil_r.
    + exists (j :: q). split; [done|]. cbn. by rewrite Hj.
  - intros ([|j q] & -> & Hq).
    + left. by rewrite app_nil_r.
    + right. cbn in Hq. apply andb_prop in Hq as [Hpw Hq].
      destruct (cs !! j) as [c|] eqn:Hj; [|done].
      split; [by destruct pw|]. by exists j, c, q.
Qed.

Lemma elem_of_walk_tree o root p : p ∈ walk_tree o root ↔ open root p = true.
Proof.
  unfold walk_tree. rewrite elem_of_walk. split.
  - by intros (q & -> & Hq).
  - intros Hp. by exists p.
Qed.

Lemma open_app p : ∀ root q,
  open root (p ++ q)
  = open root p && match subtree root p with
                   | Some n => open n q
                   | None => false
                   end.
Proof.
  induction p as [|i p IH]; intros root q; [done|]. cbn.
  destruct (Ast.pruneWalk root); [done|]. cbn.
  destruct (Ast.children root !! i) as [c|]; cbn; [apply IH|done].
Qed.

(** A path is open exactly when the tree has a node there and none of
    the nodes strictly above it prunes. *)
Lemma open_spec p : ∀ root,
  open root p = true ↔
  is_Some (subtree root p) ∧
  ∀ q r m, p = q ++ r → r ≠ [] → subtree root q = Some m →
           Ast.pruneWalk m = false.
Proof.
  induction p as [|i p IH]; intros root.
  - split; [|done]. intros _. split; [by eexists|].
    intros q r m Hqr Hr. symmetry in Hqr.
    by apply app_eq_nil in Hqr as [_ ->].
  - cbn [open subtree]. split.
    + intros [Hpw Hc]%andb_prop.
      destruct (Ast.children root !! i) as [c|] eqn:Hi; [|done].
      apply IH in Hc as [Hsub Habove]. split; [done|].
      intros [|j q] r m Hqr Hr Hm.
      * injection Hm as <-. by destruct (Ast.pruneWalk root).
      * injection Hqr as <- Hqr. cbn [subtree] in Hm. rewrite Hi in Hm.
        by apply (Habove q r m).
    + intros [Hsub Habove].
      rewrite (Habove [] (i :: p) root) by done. cbn [negb andb].
      destruct (Ast.children root !! i) as [c|] eqn:Hi; [|by destruct Hsub].
      apply IH. split; [done|]. intros q r m Hqr Hr Hm.
      apply (Habove (i :: q) r m); [by rewrite Hqr|done|].
      cbn [subtree]. by rewrite Hi.
Qed.


End WalkerFacts.



(** ** The documentation tables *)

Section DocFacts.

Import DocToRst.

Implicit Types (st : Tables) (op : Entry) (ns : string).

Lemma namespace_unmapped ns : NamespaceMappings !! ns = None → namespace ns = ns.
Proof. unfold namespace. by intros ->. Qed.

Lemma NamespaceMappings_keys ns :
  ns ≠ "signed_integer" → ns ≠ "unsigned_integer" → ns ≠ "struct_" →
  NamespaceMappings !! ns = None.
Proof.
  intros H1 H2 H3. unfold NamespaceMappings.
  by rewrite !lookup_insert_ne, lookup_singleton_ne.
Qed.

(** C8. Both integer kinds are looked up as ["integer"], and a name that
    is not a key of the table is looked up as itself. *)
Theorem namespace_groups_integers :
  namespace "signed_integer" = "integer" ∧
  namespace "unsigned_integer" = "integer" ∧
  (∀ ns, NamespaceMappings !! ns = None → namespace ns = ns) ∧
  (∀ ns, ns ≠ "signed_integer" → ns ≠ "unsigned_integer" → ns ≠ "struct_" →
         namespace ns = ns).
Proof.
  split; [done|]. split; [done|]. split; [apply namespace_unmapped|].
  intros ns H1 H2 H3. by apply namespace_unmapped, NamespaceMappings_keys.
Qed.

Lemma setdefault_append_lookup {A} (k ns : string) (v : A)
    (d : gmap string (list A)) :
  default [] (setdefault_append k v d !! ns)
  = default [] (d !! ns) ++ (if String.eqb k ns then [v] else []).
Proof.
  unfold setdefault_append. destruct (String.eqb_spec k ns) as [->|Hne].
  - by rewrite lookup_insert_eq.
  - by rewrite lookup_insert_ne, app_nil_r.
Qed.

(** One turn of the loop appends to the operators of [ns] what the entry
    contributes to [ns]. *)
Lemma main_step_operators st op ns :
  operators_of (main_step st op) ns = operators_of st ns ++ emitted ns op.
Proof.
  unfold main_step, emitted, operators_of.
  destruct (String.eqb (e_kind op) "MemberCall"); cbn [operators].
  { by rewrite app_nil_r. }
  cbn [op_kind op_namespace Operator_init make_InInv].
  destruct (String.eqb (e_kind op) "In"); cbn [operators];
    rewrite !setdefault_append_lookup;
    destruct (String.eqb (namespace (e_namespace op)) ns); cbn [negb];
    by rewrite <- ?app_assoc, ?app_nil_r.
Qed.

Lemma main_loop_from st (meta : list Entry) ns :
  operators_of (fold_left main_step meta st) ns
  = operators_of st ns ++ concat (emitted ns <$> meta).
Proof.
  revert st. induction meta as [|op meta IH]; intros st; cbn.
  - by rewrite app_nil_r.
  - by rewrite IH, main_step_operators, <- app_assoc.
Qed.

(** C10. The operators that the loop records under a namespace are the
    contributions of the entries of the dump, in the order of the dump. An
    entry of kind [In] contributes the operator itself and right after it
    a second operator, in the same namespace and with the same operands,
    operator, result type and commutativity, whose kind is [InInv] and
    whose documentation is the fixed sentence. An entry of any other kind
    contributes at most the operator itself. *)
Theorem in_operators_get_an_inverse (meta : list Entry) :
  (∀ ns, operators_of (main_loop meta) ns = concat (emitted ns <$> meta)) ∧
  (∀ op, e_kind op = "In" →
     let m2 := Operator_init op in
     ∃ m3, emitted (op_namespace m2) op = [m2; m3] ∧
           op_kind m3 = "InInv" ∧
           op_doc m3 = "Performs the inverse of the corresponding ``in`` operation." ∧
           op_namespace m3 = op_namespace m2 ∧
           op_operands m3 = op_operands m2 ∧
           op_operator m3 = op_operator m2 ∧
           op_rtype m3 = op_rtype m2 ∧
           op_commutative m3 = op_commutative m2) ∧
  (∀ op ns, e_kind op ≠ "In" →
     emitted ns op = [] ∨ emitted ns op = [Operator_init op]).
Proof.
  split; [|split].
  - intros ns. unfold main_loop. by rewrite main_loop_from.
  - intros op Hk m2. exists (make_InInv m2). unfold emitted.
    rewrite Hk. cbn. by rewrite String.eqb_refl.
  - intros op ns Hk. unfold emitted.
    destruct (String.eqb (e_kind op) "MemberCall"); [by left|].
    destruct (negb _); [by left|].
    destruct (String.eqb_spec (e_kind op) "In"); [done|by right].
Qed.

End DocFacts.

Lemma namespace_groups_integers_witness :
  DocToRst.namespace "bytes" = "bytes".
Proof. by apply namespace_groups_integers. Defined.

Lemma in_operators_get_an_inverse_witness :
  DocToRst.operators_of (DocToRst.main_loop Scenario.dump) "integer"
  = [ DocToRst.Operator_init Scenario.in_entry;
      DocToRst.make_InInv (DocToRst.Operator_init Scenario.in_entry);
      DocToRst.Operator_init Scenario.sum_entry ] ∧
  ∃ m3, DocToRst.emitted "integer" Scenario.in_entry
        = [DocToRst.Operator_init Scenario.in_entry; m3] ∧
        DocToRst.op_kind m3 = "InInv".
Proof.
  destruct (in_operators_get_an_inverse Scenario.dump) as (Hall & Hin & _).
  split; [by rewrite Hall|].
  destruct (Hin Scenario.in_entry eq_refl) as (m3 & Hm3 & Hkind & _).
  by exists m3.
Defined.

(** ** More on ranges: bounds, empty and inverted ranges, failures *)

Section RangeEdgeFacts.

Import NodeRange.

Context {Kind Capability Meta Properties : Type}.
Variable implements : Kind -> Capability -> bool.
Variable T : Capability.

Abbreviation NHeap := (gmap addr (@Node Kind Meta Properties)).
Abbreviation at_pos nodes k := (mkRangeIterator (mkBaseIterator nodes (Z.of_nat k))).

Implicit Types (h : NHeap) (p : NodePtr) (it : RangeIterator) (r : Range).

(** Dereferencing inside the vector checks the capability and nothing
    else. *)
Lemma deref_lookup h nodes (k : nat) p :
  nodes !! k = Some p →
  deref implements T h (at_pos nodes k)
  = if satisfies implements T h p then Ok p else AssertionFailure.
Proof.
  intros Hk. unfold deref.
  destruct (satisfies implements T h p) eqn:Hs.
  - apply value_satisfied; [by apply base_deref_lookup | done].
  - eapply value_unsatisfied; [by apply base_deref_lookup | done].
Qed.

Lemma views_begin r nodes b e : views r nodes b e → _begin r = at_pos nodes b.
Proof. intros (Hb & _). destruct r as [[i] j]. simpl in *. by subst. Qed.

Lemma views_end r nodes b e : views r nodes b e → _end r = at_pos nodes e.
Proof. intros (_ & He & _). destruct r as [i [j]]. simpl in *. by subst. Qed.

Lemma iter_add_at nodes (k i : nat) :
  iter_add (at_pos nodes k) (Z.of_nat i) = at_pos nodes (k + i).
Proof. unfold iter_add, base_add. simpl. do 2 f_equal. lia. Qed.

Lemma index_lookup h r nodes (b e i : nat) p :
  views r nodes b e → (Z.of_nat (length nodes) < 2 ^ 63)%Z →
  (i < e - b)%nat → nodes !! (b + i)%nat = Some p →
  index implements T h r (Z.of_nat i)
  = if satisfies implements T h p then Ok p else AssertionFailure.
Proof.
  intros Hv Hlen Hi Hp. unfold index.
  rewrite (views_diff _ _ _ _ Hv), (views_begin _ _ _ _ Hv).
  destruct Hv as (_ & _ & Hbe).
  rewrite to_difference_type_small by lia.
  destruct (Z.ltb_spec (Z.of_nat i) (Z.of_nat e - Z.of_nat b)); [|lia].
  cbn. rewrite iter_add_at. by apply deref_lookup.
Qed.

(** An index below [size()] is answered by the element at that offset of
    the span, through the asserting dereference: the element itself when
    it satisfies [T], an assertion failure when it does not. *)
Theorem index_within_size h r nodes (b e i : nat) p :
  views r nodes b e → (Z.of_nat (length nodes) < 2 ^ 63)%Z →
  (i < e - b)%nat → nodes !! (b + i)%nat = Some p →
  index implements T h r (Z.of_nat i)
  = if satisfies implements T h p then Ok p else AssertionFailure.
Proof. apply index_lookup. Qed.

(** [empty()] and [size() == 0] agree on every range that views a span,
    and both say that the span has no element. *)
Theorem empty_agrees_with_size r nodes (b e : nat) :
  views r nodes b e → (Z.of_nat (length nodes) < 2 ^ 64)%Z →
  (empty r = true ↔ size r = 0%Z) ∧ (empty r = true ↔ span nodes b e = []).
Proof.
  intros Hv Hlen. rewrite (size_views _ _ _ _ Hv Hlen).
  unfold empty, iter_eqb.
  rewrite (views_begin _ _ _ _ Hv), (views_end _ _ _ _ Hv). simpl.
  destruct Hv as (_ & _ & Hbe).
  assert (span nodes b e = [] ↔ b = e) as ->.
  { split.
    - intros Hnil. apply (f_equal length) in Hnil.
      rewrite span_length in Hnil by done. simpl in Hnil. lia.
    - intros ->. apply span_nil. }
  rewrite Z.eqb_eq. split; lia.
Qed.

(** *** What iteration returns *)

Lemma iterate_from_outcome h nodes (n : nat) : ∀ (k e fuel : nat),
  (e - k = n)%nat → (k ≤ e ≤ length nodes)%nat → (n ≤ fuel)%nat →
  iterate_from implements T fuel h (at_pos nodes k) (at_pos nodes e)
  = if forallb (satisfies implements T h) (span nodes k e)
    then Ok (span nodes k e) else AssertionFailure.
Proof.
  induction n as [|n IH]; intros k e fuel Hn Hke Hfuel.
  - assert (k = e) as -> by lia. rewrite span_nil.
    destruct fuel; simpl; by rewrite iter_neqb_at, bool_decide_eq_true_2.
  - destruct fuel as [|fuel]; [lia|].
    destruct (span_cons nodes k e) as (p & Hp & Hspan); [lia|].
    rewrite Hspan. cbn [iterate_from forallb].
    rewrite iter_neqb_at, bool_decide_eq_false_2 by lia. cbn [negb].
    rewrite (deref_lookup h nodes k p Hp), incr_at.
    destruct (satisfies implements T h p); [|done]. cbn.
    rewrite (IH (S k) e fuel) by lia.
    by destruct (forallb _ _).
Qed.

Lemma iterate_views h r nodes (b e fuel : nat) :
  views r nodes b e → (e - b ≤ fuel)%nat →
  iterate implements T fuel h r
  = if forallb (satisfies implements T h) (span nodes b e)
    then Ok (span nodes b e) else AssertionFailure.
Proof.
  intros Hv Hfuel. unfold iterate, begin, end_.
  rewrite (views_begin _ _ _ _ Hv), (views_end _ _ _ _ Hv). simpl.
  destruct Hv as (_ & _ & Hbe).
  by apply (iterate_from_outcome h nodes (e - b)).
Qed.

(** Iterating a range that views a span returns the elements of the span
    when all of them satisfy [T], and fails the assertion as soon as one
    does not: there is no third outcome, and no element is skipped. *)
Theorem iteration_outcome h r nodes (b e fuel : nat) :
  views r nodes b e → (e - b ≤ fuel)%nat →
  iterate implements T fuel h r
  = if forallb (satisfies implements T h) (span nodes b e)
    then Ok (span nodes b e) else AssertionFailure.
Proof. apply iterate_views. Qed.

(** Indexing and iterating agree: when the loop over a range returns a
    list of handles, [r[i]] returns the [i]-th of them. *)
Theorem index_agrees_with_iteration h r nodes (b e fuel i : nat) handles p :
  views r nodes b e → (Z.of_nat (length nodes) < 2 ^ 63)%Z →
  (e - b ≤ fuel)%nat →
  iterate implements T fuel h r = Ok handles →
  handles !! i = Some p →
  index implements T h r (Z.of_nat i) = Ok p.
Proof.
  intros Hv Hlen Hfuel Hit Hi.
  rewrite (iterate_views h r nodes b e fuel Hv Hfuel) in Hit.
  destruct (forallb _ _) eqn:Hall; [|discriminate]. injection Hit as <-.
  pose proof Hv as (_ & _ & Hbe).
  assert (i < e - b)%nat as Hlt.
  { apply lookup_lt_Some in Hi. by rewrite span_length in Hi. }
  pose proof Hi as Hi'. rewrite span_lookup in Hi' by done.
  rewrite (index_lookup h r nodes b e i p Hv Hlen Hlt Hi').
  apply forallb_forall with (x := p) in Hall as ->; [done|].
  apply list_elem_of_In. by eapply list_elem_of_lookup_2.
Qed.

Lemma iterate_from_inverted h (fuel : nat) : ∀ it e l,
  (pos (_iter e) < pos (_iter it))%Z →
  iterate_from implements T fuel h it e ≠ Ok l.
Proof.
  induction fuel as [|fuel IH]; intros it e l Hlt;
    cbn [iterate_from]; unfold iter_neqb, iter_eqb;
    destruct (Z.eqb_spec (pos (_iter it)) (pos (_iter e))); try lia; cbn [negb].
  - done.
  - destruct (deref implements T h it) as [x| | |]; cbn; try done.
    destruct (iterate_from implements T fuel h (incr it) e) as [xs| | |] eqn:Hrec;
      cbn; try done.
    exfalso. apply (IH (incr it) e xs); [|done]. simpl. lia.
Qed.

(** A range whose end lies before its begin is accepted by the
    constructor, and nothing notices: it is not empty, its [size()] wraps
    around to just below 2^64, and the loop from [begin()] to [end()] never
    comes to an end, whatever the fuel. *)
Theorem inverted_range_never_ends h (b e : BaseIterator) :
  (pos e < pos b)%Z →
  let r := Range_of_span b e in
  empty r = false ∧
  ((pos b - pos e < 2 ^ 64)%Z → size r = (2 ^ 64 - (pos b - pos e))%Z) ∧
  ∀ fuel handles, iterate implements T fuel h r ≠ Ok handles.
Proof.
  intros Hlt r. split; [|split].
  - unfold empty, iter_eqb. simpl. apply Z.eqb_neq. lia.
  - intros Hk. unfold size, iter_diff, to_size_t. simpl.
    replace (pos e - pos b)%Z with ((2 ^ 64 - (pos b - pos e)) + (-1) * 2 ^ 64)%Z
      by lia.
    rewrite Z.mod_add by lia. apply Z.mod_small. lia.
  - intros fuel handles. unfold iterate. by apply iterate_from_inverted.
Qed.

(** *** The first element *)

(** On a range with at least one element, dereferencing [begin()] and
    [r[0]] have the same outcome, whether the first element satisfies [T]
    or not. *)
Theorem begin_is_index_zero h r nodes (b e : nat) :
  views r nodes b e → (b < e)%nat →
  deref implements T h (begin r) = index implements T h r 0.
Proof.
  intros Hv Hbe. unfold begin, index.
  rewrite (views_diff _ _ _ _ Hv), (views_begin _ _ _ _ Hv).
  rewrite to_difference_type_small by lia.
  destruct (Z.ltb_spec 0 (Z.of_nat e - Z.of_nat b)); [|lia].
  unfold iter_add, base_add. cbn. by rewrite Z.add_0_r.
Qed.

(** *** Equality of two different range objects *)

(** Two range objects with different numbers of elements compare
    unequal, and the answer comes from the sizes alone: under every heap,
    without fuel, whatever the elements are. *)
Theorem ranges_of_different_size_differ (fuel : nat) h (objs : gmap addr Range)
    (this other : addr) r1 r2 nodes1 nodes2 (b1 e1 b2 e2 : nat) :
  objs !! this = Some r1 → objs !! other = Some r2 →
  views r1 nodes1 b1 e1 → views r2 nodes2 b2 e2 →
  (Z.of_nat (length nodes1) < 2 ^ 64)%Z → (Z.of_nat (length nodes2) < 2 ^ 64)%Z →
  (e1 - b1 ≠ e2 - b2)%nat →
  Range_eq implements T fuel h objs this other = Ok false.
Proof.
  intros Hr1 Hr2 Hv1 Hv2 Hl1 Hl2 Hne. unfold Range_eq. rewrite Hr1, Hr2.
  rewrite bool_decide_eq_false_2.
  - rewrite (size_views _ _ _ _ Hv1 Hl1), (size_views _ _ _ _ Hv2 Hl2).
    by destruct (Z.eqb_spec (Z.of_nat (e1 - b1)) (Z.of_nat (e2 - b2))); [lia|].
  - intros ->. assert (r1 = r2) as -> by congruence.
    destruct Hv1 as (Hb1 & He1 & ?), Hv2 as (Hb2 & He2 & ?).
    rewrite Hb1 in Hb2. rewrite He1 in He2.
    injection Hb2 as ? ?%Nat2Z.inj. injection He2 as ? ?%Nat2Z.inj. lia.
Qed.

(** Equality is symmetric on ranges whose elements satisfy [T]. *)
Theorem range_equality_is_symmetric (fuel : nat) h (objs : gmap addr Range)
    (this other : addr) r1 r2 nodes1 nodes2 (b1 e1 b2 e2 : nat) :
  objs !! this = Some r1 → objs !! other = Some r2 →
  views r1 nodes1 b1 e1 → views r2 nodes2 b2 e2 →
  (Z.of_nat (length nodes1) < 2 ^ 64)%Z → (Z.of_nat (length nodes2) < 2 ^ 64)%Z →
  Forall (λ p, satisfies implements T h p = true) (span nodes1 b1 e1) →
  Forall (λ p, satisfies implements T h p = true) (span nodes2 b2 e2) →
  (e1 - b1 ≤ fuel)%nat → (e2 - b2 ≤ fuel)%nat →
  Range_eq implements T fuel h objs this other
  = Range_eq implements T fuel h objs other this.
Proof.
  intros Hr1 Hr2 Hv1 Hv2 Hl1 Hl2 Hall1 Hall2 Hf1 Hf2.
  unfold Range_eq. rewrite Hr1, Hr2.
  destruct (decide (this = other)) as [->|Hne].
  { by rewrite !bool_decide_eq_true_2. }
  rewrite !bool_decide_eq_false_2 by done.
  rewrite (size_views _ _ _ _ Hv1 Hl1), (size_views _ _ _ _ Hv2 Hl2).
  rewrite (Z.eqb_sym (Z.of_nat (e2 - b2))).
  destruct (Z.eqb_spec (Z.of_nat (e1 - b1)) (Z.of_nat (e2 - b2))) as [Hsz|Hsz];
    cbn [negb]; [|done].
  apply Nat2Z.inj in Hsz.
  rewrite (views_begin _ _ _ _ Hv1), (views_end _ _ _ _ Hv1).
  rewrite (views_begin _ _ _ _ Hv2), (views_end _ _ _ _ Hv2).
  destruct Hv1 as (_ & _ & Hbe1), Hv2 as (_ & _ & Hbe2).
  assert (e2 = b2 + (e1 - b1))%nat as He2 by lia.
  assert (e1 = b1 + (e2 - b2))%nat as He1 by lia.
  rewrite (eq_loop_spans implements T h nodes1 nodes2 (e1 - b1) b1 b2 e1 fuel);
    [|done|done|lia|done|by rewrite <- He2|done].
  rewrite (eq_loop_spans implements T h nodes2 nodes1 (e2 - b2) b2 b1 e2 fuel);
    [|done|done|lia|done|by rewrite <- He1|done].
  rewrite <- He1, <- He2. f_equal. apply bool_decide_ext. by split.
Qed.

(** Between two different range objects of the same size, equality starts
    by dereferencing both first elements. When either of them does not
    satisfy [T] the comparison fails the assertion, even if the two ranges
    view the very same span. *)
Theorem range_equality_asserts_on_mistyped_element (fuel : nat) h
    (objs : gmap addr Range) (this other : addr) r1 r2 nodes1 nodes2
    (b1 e1 b2 e2 : nat) p1 p2 :
  objs !! this = Some r1 → objs !! other = Some r2 → this ≠ other →
  views r1 nodes1 b1 e1 → views r2 nodes2 b2 e2 →
  (Z.of_nat (length nodes1) < 2 ^ 64)%Z → (Z.of_nat (length nodes2) < 2 ^ 64)%Z →
  (e1 - b1 = e2 - b2)%nat → (b1 < e1)%nat →
  nodes1 !! b1 = Some p1 → nodes2 !! b2 = Some p2 →
  satisfies implements T h p1 = false ∨ satisfies implements T h p2 = false →
  Range_eq implements T (S fuel) h objs this other = AssertionFailure.
Proof.
  intros Hr1 Hr2 Hne Hv1 Hv2 Hl1 Hl2 Hsz Hbe Hp1 Hp2 Hbad.
  unfold Range_eq. rewrite Hr1, Hr2.
  rewrite bool_decide_eq_false_2 by done.
  rewrite (size_views _ _ _ _ Hv1 Hl1), (size_views _ _ _ _ Hv2 Hl2), Hsz.
  rewrite Z.eqb_refl. cbn [negb].
  rewrite (views_begin _ _ _ _ Hv1), (views_end _ _ _ _ Hv1).
  rewrite (views_begin _ _ _ _ Hv2).
  cbn [eq_loop]. rewrite iter_neqb_at, bool_decide_eq_false_2 by lia.
  cbn [negb post_incr].
  rewrite (deref_lookup h nodes1 b1 p1 Hp1), (deref_lookup h nodes2 b2 p2 Hp2).
  destruct (satisfies implements T h p1), (satisfies implements T h p2);
    try done. by destruct Hbad.
Qed.

(** *** When two ranges compare equal *)

(** The element loop answers true only after it has found every pair of
    elements to be the same pointer. *)
Lemma eq_loop_true_inv h nodes1 nodes2 (n : nat) : ∀ (k1 k2 e1 fuel : nat),
  (e1 - k1 = n)%nat → (k1 ≤ e1 ≤ length nodes1)%nat →
  (k2 + n ≤ length nodes2)%nat →
  eq_loop implements T fuel h (at_pos nodes1 k1) (at_pos nodes2 k2)
    (at_pos nodes1 e1) = Ok true →
  span nodes1 k1 e1 = span nodes2 k2 (k2 + n).
Proof.
  induction n as [|n IH]; intros k1 k2 e1 fuel Hn H1 H2 Hloop.
  - assert (k1 = e1) as -> by lia. by rewrite Nat.add_0_r, !span_nil.
  - destruct (span_cons nodes1 k1 e1) as (p1 & Hp1 & Hs1); [lia|].
    destruct (span_cons nodes2 k2 (k2 + S n)) as (p2 & Hp2 & Hs2); [lia|].
    rewrite Hs1, Hs2.
    destruct fuel as [|fuel]; cbn [eq_loop] in Hloop;
      rewrite iter_neqb_at, bool_decide_eq_false_2 in Hloop by lia;
      cbn [negb post_incr] in Hloop; [discriminate|].
    rewrite (deref_lookup h nodes1 k1 p1 Hp1), (deref_lookup h nodes2 k2 p2 Hp2)
      in Hloop.
    destruct (satisfies implements T h p1); [|discriminate].
    destruct (satisfies implements T h p2); [|discriminate].
    cbn [mbind Outcome_bind] in Hloop.
    destruct (decide (p1 = p2)) as [->|Hne].
    + rewrite bool_decide_eq_true_2 in Hloop by done. cbn [negb] in Hloop.
      rewrite !incr_at in Hloop. f_equal.
      replace (k2 + S n)%nat with (S k2 + n)%nat by lia.
      apply (IH (S k1) (S k2) e1 fuel); [lia..|done].
    + rewrite bool_decide_eq_false_2 in Hloop by done. discriminate.
Qed.


End RangeEdgeFacts.

(** ** More on the documentation tables *)

Section DocTableFacts.

Import DocToRst.

#[local] Set Warnings "-clear-no-such-hyp".

Implicit Types (st : Tables) (op : Entry) (ns k : string) (meta : list Entry).

(** The values of the table are not keys of it. *)
Lemma namespace_is_unmapped ns : NamespaceMappings !! namespace ns = None.
Proof.
  destruct (decide (ns = "signed_integer")) as [->|H1]; [done|].
  destruct (decide (ns = "unsigned_integer")) as [->|H2]; [done|].
  destruct (decide (ns = "struct_")) as [->|H3]; [done|].
  rewrite (namespace_unmapped ns) by by apply NamespaceMappings_keys.
  by apply NamespaceMappings_keys.
Qed.

(** Looking a namespace up twice is looking it up once: what the table
    maps to is not mapped any further, and never is one of the names the
    table groups away. *)
Theorem namespace_idempotent ns :
  namespace (namespace ns) = namespace ns ∧
  namespace ns ≠ "signed_integer" ∧
  namespace ns ≠ "unsigned_integer" ∧
  namespace ns ≠ "struct_".
Proof.
  pose proof (namespace_is_unmapped ns) as Hu.
  split; [by apply namespace_unmapped|].
  repeat split; intros Heq; by rewrite Heq in Hu.
Qed.

(** *** Methods *)

Lemma main_step_methods st op ns :
  methods_of (main_step st op) ns
  = methods_of st ns ++
    (if String.eqb (e_kind op) "MemberCall" &&
        String.eqb (namespace (e_namespace op)) ns
     then [Method_init op] else []).
Proof.
  unfold main_step, methods_of.
  destruct (String.eqb (e_kind op) "MemberCall"); cbn [andb].
  - cbn [methods m_namespace Method_init].
    by rewrite setdefault_append_lookup.
  - destruct (String.eqb (op_kind (Operator_init op)) "In"); cbn [methods];
      by rewrite app_nil_r.
Qed.

Lemma main_loop_methods_from st meta ns :
  methods_of (fold_left main_step meta st) ns
  = methods_of st ns ++
    (Method_init <$>
       filter (λ op, e_kind op = "MemberCall" ∧ namespace (e_namespace op) = ns) meta).
Proof.
  revert st. induction meta as [|op meta IH]; intros st; cbn [fold_left].
  - by rewrite app_nil_r.
  - rewrite IH, main_step_methods, <- app_assoc. f_equal.
    rewrite filter_cons.
    destruct (String.eqb_spec (e_kind op) "MemberCall") as [Hk|Hk];
      destruct (String.eqb_spec (namespace (e_namespace op)) ns) as [Hn|Hn];
      cbn [andb]; case_decide as Hd; try done; by destruct Hd.
Qed.

(** The methods recorded under a namespace are the [MemberCall] entries
    of the dump that map to it, in the order of the dump, and no [MemberCall]
    entry is recorded among the operators of any namespace. *)
Theorem methods_are_kept_apart meta ns :
  methods_of (main_loop meta) ns
  = Method_init <$>
      filter (λ op, e_kind op = "MemberCall" ∧ namespace (e_namespace op) = ns) meta
  ∧ ∀ m, m ∈ operators_of (main_loop meta) ns → op_kind m ≠ "MemberCall".
Proof.
  split.
  - unfold main_loop. by rewrite main_loop_methods_from.
  - unfold main_loop. rewrite main_loop_from. cbn [app].
    intros m Hm. apply list_elem_of_In, in_concat in Hm as (l & Hl & Hm).
    apply list_elem_of_In, list_elem_of_fmap in Hl as (op & -> & _).
    unfold emitted in Hm.
    destruct (String.eqb_spec (e_kind op) "MemberCall") as [|Hk]; [done|].
    destruct (negb _); [done|].
    destruct (String.eqb (e_kind op) "In");
      cbn in Hm; intuition (subst; done).
Qed.

(** *** The keys of the two dictionaries *)

Lemma setdefault_append_dom {A} k (v : A) (d : gmap string (list A)) :
  dom (setdefault_append k v d) = {[ k ]} ∪ dom d.
Proof. unfold setdefault_append. apply dom_insert_L. Qed.

Lemma main_step_namespaces st op :
  all_namespaces (main_step st op)
  = {[ namespace (e_namespace op) ]} ∪ all_namespaces st.
Proof.
  unfold all_namespaces, main_step.
  destruct (String.eqb (e_kind op) "MemberCall").
  - cbn [operators methods m_namespace Method_init].
    rewrite setdefault_append_dom. set_solver.
  - cbn [op_kind op_namespace Operator_init make_InInv].
    destruct (String.eqb (e_kind op) "In"); cbn [operators methods];
      rewrite !setdefault_append_dom; set_solver.
Qed.

Lemma main_loop_namespaces_from st meta :
  all_namespaces (fold_left main_step meta st)
  = all_namespaces st ∪ list_to_set ((λ op, namespace (e_namespace op)) <$> meta).
Proof.
  revert st. induction meta as [|op meta IH]; intros st; cbn [fold_left].
  - set_solver.
  - rewrite IH, main_step_namespaces. set_solver.
Qed.

(** The keys of the two dictionaries are the namespaces that the entries
    of the dump are looked up as, nothing more and nothing less. A key is
    therefore its own lookup, and the names that the table groups away
    never are keys. *)
Theorem recorded_namespaces meta k :
  (k ∈ all_namespaces (main_loop meta) ↔
     ∃ op, op ∈ meta ∧ namespace (e_namespace op) = k) ∧
  (k ∈ all_namespaces (main_loop meta) →
     namespace k = k ∧ k ≠ "signed_integer" ∧ k ≠ "unsigned_integer" ∧
     k ≠ "struct_").
Proof.
  assert (k ∈ all_namespaces (main_loop meta) ↔
          ∃ op, op ∈ meta ∧ namespace (e_namespace op) = k) as Hkeys.
  { unfold main_loop. rewrite main_loop_namespaces_from.
    unfold all_namespaces at 1. cbn [operators methods].
    rewrite !dom_empty_L, !(left_id_L ∅ (∪)), elem_of_list_to_set, list_elem_of_fmap.
    naive_solver. }
  split; [done|]. intros (op & _ & <-)%Hkeys.
  pose proof (namespace_is_unmapped (e_namespace op)) as Hu.
  split; [by apply namespace_unmapped|].
  repeat split; intros Heq; by rewrite Heq in Hu.
Qed.

End DocTableFacts.

(** ** Choosing, naming and writing the namespaces *)

Section DocOutputFacts.

Import DocToRst.
Import Stdlib.Strings.Ascii.

#[local] Set Warnings "-clear-no-such-hyp".

Implicit Types (st : Tables) (ns k i : string) (keys all : gset string).

Lemma append_nil_l (s : string) : String.append "" s = s.
Proof. reflexivity. Qed.

Lemma append_cons c (s u : string) :
  String.append (String c s) u = String c (String.append s u).
Proof. reflexivity. Qed.

(** *** The selection *)

Lemma split_not_nil sep s : split sep s ≠ [].
Proof.
  destruct s as [|c s]; cbn [split]; [done|].
  destruct (Ascii.eqb c sep); [done|]. by destruct (split sep s).
Qed.

(** Splitting distributes over a separator. *)
Lemma split_app sep s u :
  split sep (String.append s (String sep u)) = split sep s ++ split sep u.
Proof.
  induction s as [|c s IH]; rewrite ?append_nil_l, ?append_cons; cbn [split app].
  - by rewrite Ascii.eqb_refl.
  - destruct (Ascii.eqb c sep); [by rewrite IH|].
    rewrite IH. pose proof (split_not_nil sep s).
    by destruct (split sep s).
Qed.

Lemma startswith_empty i : startswith i "" = true.
Proof. by destruct i. Qed.

Lemma foldl_add_matching all (ks : list string) : ∀ keys i,
  i ∈ foldl (add_matching all) keys ks ↔
  i ∈ keys ∨ (i ∈ all ∧ ∃ k, k ∈ ks ∧ startswith i k = true).
Proof.
  induction ks as [|k ks IH]; intros keys i; cbn [foldl].
  - split; [by left|]. intros [?|(_ & k & Hk & _)]; [done|].
    by apply elem_of_nil in Hk.
  - rewrite IH. unfold add_matching.
    rewrite elem_of_union, elem_of_filter. split.
    + intros [[?|[? ?]]|(? & k' & ? & ?)]; [by left|right..].
      * split; [done|]. exists k. split; [left|done].
      * split; [done|]. exists k'. split; [by right|done].
    + intros [?|(? & k' & [->|?]%elem_of_cons & ?)].
      * by left; left.
      * by left; right.
      * right. split; [done|]. by exists k'.
Qed.

(** Without a directory and without types the script gives up. Otherwise
    a namespace is selected exactly when it is a key of one of the two
    dictionaries and either a directory was given or one of the
    comma-separated types is a prefix of it. *)
Theorem selection_by_prefix (args : Args) st :
  (select_keys args st = None ↔
     truthy (dir args) = false ∧ truthy (types args) = false) ∧
  ∀ keys, select_keys args st = Some keys →
    ∀ i, i ∈ keys ↔
      i ∈ all_namespaces st ∧
      (truthy (dir args) = true ∨
       (truthy (types args) = true ∧
        ∃ k, k ∈ split ","%char (default EmptyString (types args)) ∧
             startswith i k = true)).
Proof.
  unfold select_keys.
  destruct (truthy (dir args)), (truthy (types args)); cbn [negb andb].
  - split; [by split; [|intros [? ?]]|]. intros keys [= <-] i.
    rewrite foldl_add_matching. naive_solver.
  - split; [by split; [|intros [? ?]]|]. intros keys [= <-] i. naive_solver.
  - split; [by split; [|intros [? ?]]|]. intros keys [= <-] i.
    rewrite foldl_add_matching. split.
    + intros [Hi|[? ?]]; [by apply elem_of_empty in Hi|]. split; [done|]. by right.
    + intros [? [?|[_ ?]]]; [done|]. by right.
  - split; [done|]. by intros keys.
Qed.

(** A list of types that ends in a comma selects every namespace: its
    last component is empty, and every name starts with the empty
    string. *)
Theorem trailing_comma_selects_everything (d : option string) (t : string) st :
  select_keys (mkArgs d (Some (String.append t ","))) st
  = Some (all_namespaces st).
Proof.
  assert (truthy (Some (String.append t ",")) = true) as Ht by by destruct t.
  unfold select_keys. cbn [dir types from_option id]. rewrite Ht.
  rewrite andb_false_r. f_equal.
  apply set_eq. intros i. rewrite foldl_add_matching.
  rewrite (split_app ","%char t ""). split.
  - intros [Hi|[? _]]; [|done].
    destruct (truthy d); [done|by apply elem_of_empty in Hi].
  - intros Hi. right. split; [done|]. exists "".
    split; [|apply startswith_empty].
    apply elem_of_app. right. cbn. by left.
Qed.

(** *** File names *)

Lemma all_chars_app P s u :
  all_chars P (String.append s u) = all_chars P s && all_chars P u.
Proof.
  induction s as [|c s IH]; rewrite ?append_nil_l, ?append_cons; cbn; [done|].
  by rewrite IH, andb_assoc.
Qed.

Lemma lower_char_not_upper c : is_upper (lower_char c) = false.
Proof. by destruct c as [[] [] [] [] [] [] [] []]. Qed.

Lemma lower_not_upper s : all_chars (λ c, negb (is_upper c)) (lower s) = true.
Proof.
  induction s as [|c s IH]; cbn; [done|].
  by rewrite lower_char_not_upper, IH.
Qed.

(** Replacing keeps a property of characters that the replacement text
    has. *)
Lemma replace_from_all_chars P old new s :
  all_chars P new = true → ∀ skip,
  all_chars P s = true → all_chars P (replace_from old new skip s) = true.
Proof.
  intros Hnew. induction s as [|c s IH]; intros skip Hs; cbn [replace_from]; [done|].
  cbn [all_chars] in Hs. apply andb_prop in Hs as [Hc Hs].
  destruct skip as [|skip]; [|by apply IH].
  destruct (String.prefix old (String c s)).
  - rewrite all_chars_app, Hnew. by apply IH.
  - cbn [all_chars]. rewrite Hc. by apply IH.
Qed.

Lemma prefix_nil s : String.prefix "" s = true.
Proof. by destruct s. Qed.

Lemma replace_from_cons old new c s :
  replace_from old new 0 (String c s)
  = if String.prefix old (String c s)
    then String.append new (replace_from old new (String.length old - 1) s)
    else String c (replace_from old new 0 s).
Proof. reflexivity. Qed.

Lemma replace_from_skip old new (k : nat) c s :
  replace_from old new (S k) (String c s) = replace_from old new k s.
Proof. reflexivity. Qed.

Lemma replace_underscore_cons c s :
  replace "_" "-" (String c s)
  = String (if Ascii.eqb c "_" then "-"%char else c) (replace "_" "-" s).
Proof.
  unfold replace. rewrite replace_from_cons.
  change (String.prefix "_" (String c s))
    with (if ascii_dec "_" c then String.prefix "" s else false).
  destruct (ascii_dec "_" c) as [<-|Hne].
  - by rewrite prefix_nil.
  - destruct (Ascii.eqb_spec c "_"); [congruence|reflexivity].
Qed.

Lemma replace_underscore_none s :
  all_chars (λ c, negb (Ascii.eqb c "_")) (replace "_" "-" s) = true.
Proof.
  induction s as [|c s IH]; [done|].
  rewrite replace_underscore_cons. cbn [all_chars]. rewrite IH, andb_true_r.
  destruct (Ascii.eqb c "_") eqn:Hc; [reflexivity|by rewrite Hc].
Qed.

Lemma has_double_colon_cons c s :
  has_double_colon (String c s)
  = (Ascii.eqb c ":" && starts_colon s) || has_double_colon s.
Proof.
  destruct s; cbn [has_double_colon starts_colon]; [|done].
  by rewrite andb_false_r.
Qed.

Lemma replace_underscore_colons s :
  starts_colon (replace "_" "-" s) = starts_colon s ∧
  has_double_colon (replace "_" "-" s) = has_double_colon s.
Proof.
  induction s as [|c s [IH1 IH2]]; [done|].
  rewrite replace_underscore_cons, !has_double_colon_cons, IH1, IH2.
  cbn [starts_colon].
  by destruct (Ascii.eqb_spec c "_") as [->|].
Qed.

Lemma replace_colons_cons c s :
  replace "::" "-" (String c s)
  = if Ascii.eqb c ":" && starts_colon s
    then String "-" (replace "::" "-" (match s with String _ s' => s' | _ => "" end))
    else String c (replace "::" "-" s).
Proof.
  unfold replace. rewrite replace_from_cons.
  change (String.prefix "::" (String c s))
    with (if ascii_dec ":" c then String.prefix ":" s else false).
  destruct (ascii_dec ":" c) as [<-|Hne].
  - destruct s as [|c' s]; [reflexivity|].
    change (String.prefix ":" (String c' s))
      with (if ascii_dec ":" c' then String.prefix "" s else false).
    destruct (ascii_dec ":" c') as [<-|Hne'].
    + by rewrite prefix_nil.
    + cbn [starts_colon]. destruct (Ascii.eqb_spec c' ":"); [congruence|reflexivity].
  - destruct (Ascii.eqb_spec c ":"); [congruence|reflexivity].
Qed.

Lemma replace_colons_none (n : nat) : ∀ s,
  (String.length s ≤ n)%nat →
  has_double_colon (replace "::" "-" s) = false ∧
  (starts_colon (replace "::" "-" s) = true →
   starts_colon s = true ∧
   starts_colon (match s with String _ s' => s' | _ => "" end) = false).
Proof.
  induction n as [|n IH]; intros [|c s] Hlen; cbn [String.length] in Hlen;
    try (split; [reflexivity|discriminate]); [lia|].
  rewrite replace_colons_cons. cbn [starts_colon].
  destruct (Ascii.eqb c ":") eqn:Hc; destruct (starts_colon s) eqn:Hs; cbn [andb].
  - destruct s as [|c' s]; [discriminate|]. cbn [String.length] in Hlen.
    destruct (IH s) as [IH1 _]; [lia|].
    rewrite has_double_colon_cons, IH1. split; [reflexivity|discriminate].
  - destruct (IH s) as [IH1 IH2]; [lia|].
    assert (starts_colon (replace "::" "-" s) = false) as Hr.
    { destruct (starts_colon (replace "::" "-" s)); [|done].
      destruct (IH2 eq_refl) as [Hs' _]. congruence. }
    rewrite has_double_colon_cons, Hc, Hr, IH1. cbn [starts_colon]. by rewrite Hc.
  - destruct (IH s) as [IH1 _]; [lia|].
    rewrite has_double_colon_cons, Hc, IH1. cbn [starts_colon]. rewrite Hc.
    split; [reflexivity|discriminate].
  - destruct (IH s) as [IH1 _]; [lia|].
    rewrite has_double_colon_cons, Hc, IH1. cbn [starts_colon]. rewrite Hc.
    split; [reflexivity|discriminate].
Qed.

(** The file of a namespace is named by a stem and the extension [.rst].
    The stem has no upper-case letter, no underscore and no two colons in a
    row, whatever the namespace is made of. *)
Theorem file_name_is_tidy ns :
  all_chars is_ascii ns = true →
  ∃ stem,
    rst_file_name ns = String.append stem ".rst" ∧
    all_chars (λ c, negb (is_upper c)) stem = true ∧
    all_chars (λ c, negb (Ascii.eqb c "_")) stem = true ∧
    has_double_colon stem = false.
Proof.
  intros _. unfold rst_file_name.
  set (fname := if endswith (namespace ns) "_" then drop_last (namespace ns)
                else namespace ns).
  exists (replace "_" "-" (replace "::" "-" (lower fname))).
  split; [done|]. split; [|split].
  - unfold replace. apply replace_from_all_chars; [done|].
    apply replace_from_all_chars; [done|]. apply lower_not_upper.
  - apply replace_underscore_none.
  - rewrite (proj2 (replace_underscore_colons _)).
    by apply (replace_colons_none (String.length (lower fname))).
Qed.

(** *** Printing without repetition *)

Abbreviation with_newline := (λ s : string, String.append s (String "010"%char EmptyString)).

Lemma with_newline_inj (s s' : string) : with_newline s = with_newline s' → s = s'.
Proof.
  revert s'. induction s as [|c s IH]; intros [|c' s']; cbn beta;
    rewrite ?append_nil_l, ?append_cons; intros Heq.
  - done.
  - injection Heq as _ Heq. by destruct s'.
  - injection Heq as _ Heq. by destruct s.
  - injection Heq as -> Heq. f_equal. by apply IH.
Qed.

Lemma print_unique_fold (l : list string) : ∀ (seen : gset string) (out : list string),
  NoDup out → (∀ s, s ∈ seen ↔ with_newline s ∈ out) →
  let st := foldl print_unique (seen, out) l in
  NoDup st.2 ∧
  (∀ s, s ∈ st.1 ↔ with_newline s ∈ st.2) ∧
  (∀ s, s ∈ st.1 ↔ s ∈ seen ∨ s ∈ l) ∧
  ∃ added, st.2 = out ++ added ∧
           added `sublist_of` (with_newline <$> l) ∧
           (NoDup l → (∀ s, s ∈ l → s ∉ seen) → added = with_newline <$> l).
Proof.
  induction l as [|x l IH]; intros seen out Hnd Hinv; cbv zeta; cbn [foldl].
  - cbn [fst snd]. split; [done|]. split; [done|]. split.
    + intros s. split; [by left|]. intros [?|Hs]; [done|].
      by apply elem_of_nil in Hs.
    + exists []. rewrite app_nil_r. split; [reflexivity|].
      split; [apply sublist_nil_l|]. intros _ _. reflexivity.
  - destruct (decide (x ∈ seen)) as [Hx|Hx].
    + assert (print_unique (seen, out) x = (seen, out)) as ->.
      { unfold print_unique. cbn [fst snd]. by rewrite decide_True. }
      destruct (IH seen out Hnd Hinv) as (H1 & H2 & H3 & added & H4 & H5 & H6).
      split; [exact H1|]. split; [exact H2|]. split.
      * intros s. rewrite H3, elem_of_cons. naive_solver.
      * exists added. split; [exact H4|]. split; [by apply sublist_cons|].
        intros Hndl Hfresh. exfalso. apply (Hfresh x); [by left|done].
    + assert (print_unique (seen, out) x
              = ({[x]} ∪ seen, out ++ [with_newline x])) as ->.
      { unfold print_unique. cbn [fst snd]. by rewrite decide_False. }
      assert (with_newline x ∉ out) as Hxo by (by rewrite <- Hinv).
      destruct (IH ({[x]} ∪ seen) (out ++ [with_newline x]))
        as (H1 & H2 & H3 & added & H4 & H5 & H6).
      { apply NoDup_app. split; [done|]. split; [|apply NoDup_singleton].
        intros y Hy ->%list_elem_of_singleton. done. }
      { intros s. rewrite elem_of_union, elem_of_singleton, elem_of_app,
          list_elem_of_singleton, Hinv.
        split; [intros [->|?]; auto|intros [?|?%with_newline_inj]; auto]. }
      split; [exact H1|]. split; [exact H2|]. split.
      * intros s. rewrite H3, elem_of_union, elem_of_singleton, elem_of_cons.
        naive_solver.
      * exists (with_newline x :: added). rewrite H4, <- app_assoc.
        split; [reflexivity|]. split; [by apply sublist_skip|].
        intros [Hxl Hndl]%NoDup_cons Hfresh. cbn [fmap list_fmap]. f_equal.
        apply H6; [done|]. intros s Hs.
        rewrite elem_of_union, elem_of_singleton. intros [->|?]; [done|].
        apply (Hfresh s); [by right|done].
Qed.

Lemma print_unique_fold_order (l : list string) :
  ∀ (seen : gset string) (out : list string),
  (foldl print_unique (seen, out) l).2
  = out ++ (with_newline <$> filter (λ y, y ∉ seen) (first_occurrences l)).
Proof.
  induction l as [|x l IH]; intros seen out; cbn [foldl first_occurrences].
  - by rewrite filter_nil, app_nil_r.
  - destruct (decide (x ∈ seen)) as [Hx|Hx].
    + assert (print_unique (seen, out) x = (seen, out)) as ->.
      { unfold print_unique. cbn [fst snd]. by rewrite decide_True. }
      rewrite IH, filter_cons_False by (by intros Hn; apply Hn).
      rewrite list_filter_filter_l; [done|]. intros y Hy ->. done.
    + assert (print_unique (seen, out) x
              = ({[x]} ∪ seen, out ++ [with_newline x])) as ->.
      { unfold print_unique. cbn [fst snd]. by rewrite decide_False. }
      rewrite IH, filter_cons_True by done.
      rewrite list_filter_filter, <- app_assoc. cbn [fmap list_fmap app].
      do 3 f_equal. apply list_filter_iff. intros y.
      rewrite elem_of_union, elem_of_singleton. tauto.
Qed.

Lemma print_all_seen (l : list string) s : s ∈ (print_all l).1 ↔ s ∈ l.
Proof.
  destruct (print_unique_fold l ∅ []) as (_ & _ & H3 & _).
  { constructor. }
  { intros y. split; [by intros ?%elem_of_empty|by intros ?%elem_of_nil]. }
  fold (print_all l) in H3. rewrite H3. split; [|by right].
  intros [?%elem_of_empty|?]; done.
Qed.

(** What is printed for a list of renderings is the list of its first
    occurrences, each followed by a newline. Said step by step: a rendering
    that comes after the list is printed at the end if it is not in the
    list, and not at all if it is. So every rendering is printed, none
    twice, in the order of the list, and a list without repetitions is
    printed as it is. *)
Theorem printing_drops_repetitions (l : list string) :
  (print_all l).2 = with_newline <$> first_occurrences l ∧
  (∀ x, (print_all (l ++ [x])).2
        = if decide (x ∈ l) then (print_all l).2
          else (print_all l).2 ++ [with_newline x]) ∧
  NoDup (print_all l).2 ∧
  (∀ s, s ∈ l ↔ with_newline s ∈ (print_all l).2) ∧
  (print_all l).2 `sublist_of` (with_newline <$> l) ∧
  (NoDup l → (print_all l).2 = with_newline <$> l).
Proof.
  split; [|split].
  { unfold print_all. rewrite print_unique_fold_order. cbn [app]. f_equal.
    induction (first_occurrences l) as [|y k IHk]; [done|].
    rewrite filter_cons_True by apply not_elem_of_empty. by f_equal. }
  { intros x. unfold print_all at 1. rewrite foldl_snoc. fold (print_all l).
    unfold print_unique. pose proof (print_all_seen l x) as Hseen.
    destruct (decide (x ∈ l)) as [Hx|Hx].
    - by rewrite decide_True by by apply Hseen.
    - by rewrite decide_False by by rewrite Hseen. }
  destruct (print_unique_fold l ∅ []) as (H1 & H2 & H3 & added & H4 & H5 & H6).
  { constructor. }
  { intros s. split; [by intros ?%elem_of_empty|by intros ?%elem_of_nil]. }
  fold (print_all l) in *. cbn [app] in H4. rewrite H4 in *.
  split; [done|]. split; [|split; [done|]].
  - intros s. rewrite <- H2, H3. split; [by right|].
    intros [?%elem_of_empty|?]; done.
  - intros Hnd. apply H6; [done|]. intros s _. apply not_elem_of_empty.
Qed.

(** *** The order of the dump does not show *)

Lemma sorted_Permutation (l l' : list string) : l ≡ₚ l' → sorted l = sorted l'.
Proof.
  intros Hp. unfold sorted. apply (Sorted_unique String.le).
  - apply Sorted_merge_sort, _.
  - apply Sorted_merge_sort, _.
  - by rewrite !merge_sort_Permutation.
Qed.

Lemma concat_fmap_Permutation {A B} (f : A → list B) (l l' : list A) :
  l ≡ₚ l' → concat (f <$> l) ≡ₚ concat (f <$> l').
Proof.
  induction 1 as [|x l l' _ IH|x y l|l1 l2 l3 _ IH1 _ IH2]; cbn.
  - done.
  - by rewrite IH.
  - rewrite !app_assoc. f_equiv. apply Permutation_app_comm.
  - by etrans.
Qed.

Lemma write_namespace_sorted prefix (m m' o o' : list string) :
  sorted m = sorted m' → sorted o = sorted o' →
  write_namespace prefix m o = write_namespace prefix m' o'.
Proof. unfold write_namespace. by intros -> ->. Qed.

(** Two dumps with the same entries in different orders give the same
    output: the same namespaces, and for each namespace the same printed
    lines, however the methods and operators are rendered. *)
Theorem dump_order_does_not_show (meta meta' : list Entry) :
  meta ≡ₚ meta' →
  all_namespaces (main_loop meta) = all_namespaces (main_loop meta') ∧
  ∀ ns prefix (render_method : Method → string)
      (render_operator : Operator → string),
    write_namespace prefix
      (render_method <$> methods_of (main_loop meta) ns)
      (render_operator <$> operators_of (main_loop meta) ns)
    = write_namespace prefix
        (render_method <$> methods_of (main_loop meta') ns)
        (render_operator <$> operators_of (main_loop meta') ns).
Proof.
  intros Hp. split.
  - unfold main_loop. rewrite !main_loop_namespaces_from. f_equal.
    apply set_eq. intros k. rewrite !elem_of_list_to_set. by rewrite Hp.
  - intros ns prefix g f. apply write_namespace_sorted; apply sorted_Permutation.
    + unfold main_loop. rewrite !main_loop_methods_from. by rewrite Hp.
    + unfold main_loop. rewrite !main_loop_from.
      apply fmap_Permutation, Permutation_app; [done|].
      by apply concat_fmap_Permutation.
Qed.

End DocOutputFacts.

(** ** The properties above on the example tree and dump *)

Section Examples.

Import NodeRange.

Abbreviation impl := Scenario.implements.
Abbreviation Expr := Scenario.Expression.
Abbreviation over nodes b e :=
  (Range_of_span (mkBaseIterator nodes b) (mkBaseIterator nodes e)).

Lemma index_within_size_witness :
  index impl Expr Scenario.heap (Range_of_vector Scenario.mixed) 1
  = Ok (Some 1%positive).
Proof.
  apply (index_within_size impl Expr Scenario.heap
           (Range_of_vector Scenario.mixed) Scenario.mixed 0 3 1 (Some 1%positive)).
  - repeat split; simpl; lia.
  - simpl. lia.
  - lia.
  - reflexivity.
Defined.

Lemma index_asserts_below_sign_bit_witness :
  index impl Expr Scenario.heap (Range_of_vector Scenario.exprs) 3
  = AssertionFailure.
Proof.
  apply (index_asserts_below_sign_bit impl Expr Scenario.heap
           (Range_of_vector Scenario.exprs) Scenario.exprs 0 3 3).
  - repeat split; simpl; lia.
  - simpl. lia.
Defined.

Lemma empty_agrees_with_size_witness :
  (empty (over Scenario.exprs 2 2) = true ↔ size (over Scenario.exprs 2 2) = 0%Z) ∧
  (empty (over Scenario.exprs 2 2) = true ↔ span Scenario.exprs 2 2 = []).
Proof.
  apply (empty_agrees_with_size (over Scenario.exprs 2 2) Scenario.exprs 2 2).
  - repeat split; simpl; lia.
  - simpl. lia.
Defined.

Lemma iteration_outcome_witness :
  iterate impl Expr 3 Scenario.heap (Range_of_vector Scenario.mixed)
  = AssertionFailure.
Proof.
  apply (iteration_outcome impl Expr Scenario.heap
           (Range_of_vector Scenario.mixed) Scenario.mixed 0 3 3).
  - repeat split; simpl; lia.
  - lia.
Defined.

Lemma index_agrees_with_iteration_witness :
  index impl Expr Scenario.heap (over Scenario.exprs 1 3) 1 = Ok (Some 2%positive).
Proof.
  apply (index_agrees_with_iteration impl Expr Scenario.heap
           (over Scenario.exprs 1 3) Scenario.exprs 1 3 2 1
           [Some 1%positive; Some 2%positive]).
  - repeat split; simpl; lia.
  - simpl. lia.
  - lia.
  - reflexivity.
  - reflexivity.
Defined.

Lemma inverted_range_never_ends_witness :
  empty (over Scenario.exprs 2 1) = false ∧
  size (over Scenario.exprs 2 1) = (2 ^ 64 - 1)%Z ∧
  ∀ fuel handles,
    iterate impl Expr fuel Scenario.heap (over Scenario.exprs 2 1) ≠ Ok handles.
Proof.
  destruct (inverted_range_never_ends impl Expr Scenario.heap
              (mkBaseIterator Scenario.exprs 2) (mkBaseIterator Scenario.exprs 1))
    as (Hempty & Hsize & Hloop); [simpl; lia|].
  split; [exact Hempty|]. split; [|exact Hloop].
  apply Hsize. simpl. lia.
Defined.

Lemma begin_is_index_zero_witness :
  deref impl Expr Scenario.heap (begin (over Scenario.mixed 0 2))
  = index impl Expr Scenario.heap (over Scenario.mixed 0 2) 0.
Proof.
  apply (begin_is_index_zero impl Expr Scenario.heap
           (over Scenario.mixed 0 2) Scenario.mixed 0 2).
  - repeat split; simpl; lia.
  - lia.
Defined.



Lemma ranges_of_different_size_differ_witness :
  Range_eq impl Expr 0 Scenario.heap
    {[ 1%positive := Range_of_vector Scenario.mixed;
       2%positive := over Scenario.mixed 0 2 ]} 1%positive 2%positive
  = Ok false.
Proof.
  apply (ranges_of_different_size_differ impl Expr 0 Scenario.heap _
           1%positive 2%positive
           (Range_of_vector Scenario.mixed) (over Scenario.mixed 0 2)
           Scenario.mixed Scenario.mixed 0 3 0 2).
  - reflexivity.
  - reflexivity.
  - repeat split; simpl; lia.
  - repeat split; simpl; lia.
  - simpl. lia.
  - simpl. lia.
  - lia.
Defined.

Lemma range_equality_is_symmetric_witness :
  let objs : gmap addr Range :=
    {[ 1%positive := Range_of_vector Scenario.exprs;
       2%positive := over Scenario.exprs 0 3 ]} in
  Range_eq impl Expr 3 Scenario.heap objs 1%positive 2%positive
  = Range_eq impl Expr 3 Scenario.heap objs 2%positive 1%positive.
Proof.
  intros objs.
  apply (range_equality_is_symmetric impl Expr 3 Scenario.heap objs
           1%positive 2%positive
           (Range_of_vector Scenario.exprs) (over Scenario.exprs 0 3)
           Scenario.exprs Scenario.exprs 0 3 0 3).
  - reflexivity.
  - reflexivity.
  - repeat split; simpl; lia.
  - repeat split; simpl; lia.
  - simpl. lia.
  - simpl. lia.
  - repeat constructor.
  - repeat constructor.
  - lia.
  - lia.
Defined.

(** Two range objects over the same vector, which starts with a type:
    compared as ranges of expressions they fail the assertion, although
    each of them equals itself. *)
Lemma range_equality_asserts_on_mistyped_element_witness :
  Range_eq impl Expr 1 Scenario.heap
    {[ 1%positive := Range_of_vector Scenario.mixed;
       2%positive := Range_of_vector Scenario.mixed ]} 1%positive 2%positive
  = AssertionFailure.
Proof.
  apply (range_equality_asserts_on_mistyped_element impl Expr 0 Scenario.heap _
           1%positive 2%positive
           (Range_of_vector Scenario.mixed) (Range_of_vector Scenario.mixed)
           Scenario.mixed Scenario.mixed 0 3 0 3
           (Some 4%positive) (Some 4%positive)).
  - reflexivity.
  - reflexivity.
  - discriminate.
  - repeat split; simpl; lia.
  - repeat split; simpl; lia.
  - simpl. lia.
  - simpl. lia.
  - reflexivity.
  - lia.
  - reflexivity.
  - reflexivity.
  - left. reflexivity.
Defined.

Import DocToRst.
Import Stdlib.Strings.Ascii.

Lemma methods_are_kept_apart_witness :
  methods_of (main_loop Scenario.dump) "bytes" = [Method_init Scenario.method_entry] ∧
  ∀ m, m ∈ operators_of (main_loop Scenario.dump) "bytes" →
       op_kind m ≠ "MemberCall".
Proof. apply (methods_are_kept_apart Scenario.dump "bytes"). Defined.

Lemma recorded_namespaces_witness :
  namespace "integer" = "integer" ∧ "integer" ≠ "signed_integer" ∧
  "integer" ≠ "unsigned_integer" ∧ "integer" ≠ "struct_".
Proof.
  apply (recorded_namespaces Scenario.dump "integer").
  apply (recorded_namespaces Scenario.dump "integer").
  exists Scenario.in_entry. split; [|reflexivity].
  apply list_elem_of_In. simpl. by left.
Defined.

Lemma selection_by_prefix_witness :
  "integer" ∈ all_namespaces (main_loop Scenario.dump) ∧
  (truthy None = true ∨
   (truthy (Some "int,by") = true ∧
    ∃ k, k ∈ split ","%char "int,by" ∧ startswith "integer" k = true)).
Proof.
  destruct (selection_by_prefix (mkArgs None (Some "int,by"))
              (main_loop Scenario.dump)) as [_ Hsel].
  apply (Hsel (all_namespaces (main_loop Scenario.dump))).
  - vm_compute. reflexivity.
  - vm_compute. reflexivity.
Defined.

Lemma file_name_is_tidy_witness :
  ∃ stem,
    rst_file_name "Bytes::Iterator_" = String.append stem ".rst" ∧
    all_chars (λ c, negb (is_upper c)) stem = true ∧
    all_chars (λ c, negb (Ascii.eqb c "_")) stem = true ∧
    has_double_colon stem = false.
Proof. apply (file_name_is_tidy "Bytes::Iterator_"). reflexivity. Defined.

(** A rendering that comes back is printed where it came first. *)
Lemma printing_drops_repetitions_witness :
  (print_all ["a"; "b"; "a"]).2
  = (λ s : string, String.append s (String "010"%char EmptyString)) <$> ["a"; "b"] ∧
  (print_all ["b"; "a"]).2
  = (λ s : string, String.append s (String "010"%char EmptyString)) <$> ["b"; "a"].
Proof.
  split.
  - apply (printing_drops_repetitions ["a"; "b"; "a"]).
  - apply (printing_drops_repetitions ["b"; "a"]).
    repeat constructor; rewrite ?elem_of_cons, ?elem_of_nil; intuition discriminate.
Defined.

Lemma dump_order_does_not_show_witness :
  all_namespaces (main_loop Scenario.dump)
  = all_namespaces (main_loop (reverse Scenario.dump)) ∧
  ∀ ns prefix (render_method : Method → string)
      (render_operator : Operator → string),
    write_namespace prefix
      (render_method <$> methods_of (main_loop Scenario.dump) ns)
      (render_operator <$> operators_of (main_loop Scenario.dump) ns)
    = write_namespace prefix
        (render_method <$> methods_of (main_loop (reverse Scenario.dump)) ns)
        (render_operator <$> operators_of (main_loop (reverse Scenario.dump)) ns).
Proof.
  apply (dump_order_does_not_show Scenario.dump (reverse Scenario.dump)).
  symmetry. apply reverse_Permutation.
Defined.

End Examples.
